(** * The schema-migration engine of [db/migration/new_migrator.go]

    A shallow embedding of the Go package [migration]: the migrator's
    methods are functions in a small state-and-trace monad over a model of
    the [database/sql] connection they drive.  Every call the Go code makes
    on the connection ([Exec], [QueryRow], [Begin], [tx.Exec], [Commit],
    [Rollback]) is one primitive of the monad and leaves one event in the
    trace, so that properties about what the engine does, and in which
    order, are statements about traces and database states. *)

From Stdlib Require Import String Ascii List ZArith Lia Bool DecimalString.
Import ListNotations.

Local Open Scope string_scope.
Local Open Scope list_scope.

(** ** Go's [strings] and [fmt], as far as the package uses them *)

Module strings.

(** [cut sep s] is the text of [s] before the first [sep] byte, and the
    pieces that follow it. *)
Fixpoint cut (sep : ascii) (s : string) : string * list string :=
  match s with
  | EmptyString => (EmptyString, [])
  | String c s' =>
      let (piece, pieces) := cut sep s' in
      if Ascii.eqb c sep then (EmptyString, piece :: pieces)
      else (String c piece, pieces)
  end.

(** [strings.Split(s, sep)] for a separator of one byte: all substrings of
    [s] separated by [sep]; [n] separators give [n + 1] substrings. *)
Definition Split (s : string) (sep : ascii) : list string :=
  let (piece, pieces) := cut sep s in piece :: pieces.

(** [strings.Count(s, sep)] for a separator of one byte. *)
Fixpoint Count (s : string) (sep : ascii) : nat :=
  match s with
  | EmptyString => 0
  | String c s' => (if Ascii.eqb c sep then 1 else 0) + Count s' sep
  end.

(** [strings.Join(elems, sep)]. *)
Fixpoint Join (elems : list string) (sep : string) : string :=
  match elems with
  | [] => EmptyString
  | [e] => e
  | e :: rest => e ++ sep ++ Join rest sep
  end.

(** [strings.ContainsRune(s, c)] for an ASCII [c]. *)
Fixpoint Contains (s : string) (c : ascii) : bool :=
  match s with
  | EmptyString => false
  | String c' s' => Ascii.eqb c' c || Contains s' c
  end.

End strings.

Module fmt.

(** The verb [%d] applied to an [int]. *)
Definition d (n : Z) : string := NilZero.string_of_int (Z.to_int n).

End fmt.

(** ** Errors and outcomes *)

(** A Go [error] value, identified with its message. *)
Definition error : Type := string.

(** How a call of [Up] ends: it returns its [error] result ([None] is
    [nil]), or the Go runtime panics. *)
Inductive Outcome : Type :=
| Returned (err : option error)
| Panicked (msg : string).

(** ** Go's [strconv], as [database/sql] uses it to scan into an [int]

    Errors are the [Err] of the [NumError] that [strconv] returns, which
    is what [database/sql] keeps of it. *)

Module strconv.

Definition digit (c : ascii) : option Z :=
  let n := Z.of_nat (nat_of_ascii c) in
  if ((48 <=? n) && (n <=? 57))%Z then Some (n - 48)%Z else None.

(** The loop of [strconv.ParseUint(s, 10, 64)] over the bytes of [s], with
    [n] the value so far: a byte that is not a digit is a syntax error, and
    a value that leaves the range of a [uint64] a range error, whichever
    comes first. *)
Fixpoint digits (n : Z) (s : string) : Z + error :=
  match s with
  | EmptyString => inl n
  | String c s' =>
      match digit c with
      | None => inr "invalid syntax"
      | Some k =>
          if (2 ^ 64 <=? 10 * n + k)%Z then inr "value out of range"
          else digits (10 * n + k)%Z s'
      end
  end.

(** [strconv.ParseInt(s, 10, 64)]: an optional sign and at least one
    decimal digit, within the range of an [int64]. *)
Definition ParseInt (s : string) : Z + error :=
  match s with
  | EmptyString => inr "invalid syntax"
  | String c rest =>
      let neg := Ascii.eqb c "-"%char in
      let body :=
        if Ascii.eqb c "+"%char || Ascii.eqb c "-"%char then rest else s in
      match body with
      | EmptyString => inr "invalid syntax"
      | _ =>
          match digits 0 body with
          | inr e => inr e
          | inl un =>
              if (negb neg && (2 ^ 63 <=? un))%Z%bool then
                inr "value out of range"
              else if (neg && (2 ^ 63 <? un))%Z%bool then
                inr "value out of range"
              else inl (if neg then (- un)%Z else un)
          end
      end
  end.

End strconv.

(** ** The database behind [*sql.DB] *)

(** The table named [migration_version], when there is one, with the
    [version] value of each of its rows as text, in the order a [SELECT]
    without [ORDER BY] yields the rows, and everything else the database
    holds.  The table [createTableStmt] makes has a [varchar(255)] column;
    the value of an integer column is the decimal text of the number,
    which is also how [database/sql] takes it when it scans into an
    [int]. *)
Record Database {Schema : Type} : Type := mkDatabase {
  migration_version : option (list string);
  schema : Schema
}.
Arguments Database : clear implicits.
Arguments mkDatabase {Schema} _ _.

(** What the package takes from outside: how the database server executes
    a statement it is sent, and the generated asset table ([Asset],
    [AssetNames]) that holds the migration files. *)
Record Env {Schema : Type} : Type := mkEnv {
  sql : string -> Database Schema -> Database Schema + error;
  Asset : string -> string + error;
  AssetNames : list string
}.
Arguments Env : clear implicits.
Arguments mkEnv {Schema} _ _ _.

(** The connection as the engine sees it: the committed database, and the
    faults still to come.  Each call on the connection consumes the head of
    [faults]; [Some e] makes that call fail with [e] without touching the
    data, [None] (or an exhausted list) lets the call run. *)
Record World {Schema : Type} : Type := mkWorld {
  data : Database Schema;
  faults : list (option error)
}.
Arguments World : clear implicits.
Arguments mkWorld {Schema} _ _.

(** A call the engine makes on a collaborator.  The two lock calls are
    those of [lock.LockFactory] and [lock.Lock]. *)
Inductive Call : Type :=
| DBExec (query : string)
| DBQueryRow (query : string)
| DBBegin
| TxExec (query : string)
| TxCommit
| TxRollback
| Printf (out : string)
| LockAcquire
| LockRelease.

(** A call together with the error it returned. *)
Definition Event : Type := Call * option error.

(** An open [*sql.Tx]: the database as the transaction sees it. *)
Record Tx {Schema : Type} : Type := mkTx { working : Database Schema }.
Arguments Tx : clear implicits.
Arguments mkTx {Schema} _.

(** Computations on the connection: from a world to a result, the world
    afterwards and the events of the calls made, oldest first. *)
Definition M (Schema A : Type) : Type :=
  World Schema -> A * World Schema * list Event.

Definition ret {Schema A} (a : A) : M Schema A := fun w => (a, w, []).

Definition bind {Schema A B} (m : M Schema A) (k : A -> M Schema B)
    : M Schema B :=
  fun w =>
    let '(a, w1, t1) := m w in
    let '(b, w2, t2) := k a w1 in
    (b, w2, t1 ++ t2).

Declare Scope go_scope.
Delimit Scope go_scope with go.
Notation "x <- m ;; k" := (bind m (fun x => k))
  (at level 61, m at next level, right associativity) : go_scope.
Notation "' p <- m ;; k" := (bind m (fun x => match x with p => k end))
  (at level 61, p pattern, m at next level, right associativity) : go_scope.

(** Projections of a finished run. *)
Definition result {Schema A} (r : A * World Schema * list Event) : A :=
  fst (fst r).
Definition world {Schema A} (r : A * World Schema * list Event)
    : World Schema :=
  snd (fst r).
Definition events {Schema A} (r : A * World Schema * list Event)
    : list Event :=
  snd r.
Definition calls (t : list Event) : list Call := map fst t.

(** ** Constants of the package *)

Definition postgresTableName : string := "migration_version".
Definition noTransaction : string := "NO_TRANSACTION;".

Definition oldMigrationLastVersion : Z := 189.
Definition newMigrationStartVersion : Z := 1510262030.

(** The SQL texts the methods build or spell out. *)
Definition createTableStmt : string :=
  "CREATE TABLE IF NOT EXISTS " ++ postgresTableName
    ++ " (version varchar(255) not null primary key)".
Definition selectVersionsStmt : string :=
  "SELECT version from " ++ postgresTableName ++ " ORDER BY DESC".
Definition legacyExistsQuery : string :=
  "SELECT EXISTS ( SELECT 1 FROM information_schema.tables "
  ++ "WHERE table_name = 'migration_version')".
Definition legacyVersionQuery : string :=
  "SELECT version FROM migration_version".
Definition dropLegacyStmt : string := "DROP TABLE IF EXISTS migration_version".

(** ** The [migrator] struct

    Its [db] field is the connection, which the monad threads as the
    [World]; [lockFactory] and [strategy] are values of interfaces of other
    packages, which the struct only stores; [logger] is kept as the name it
    is created with. *)
Record migrator {LockFactory Strategy : Type} : Type := mkMigrator {
  lockFactory : LockFactory;
  strategy : Strategy;
  logger : string;
  migrationFiles : list string
}.
Arguments migrator : clear implicits.
Arguments mkMigrator {LockFactory Strategy} _ _ _ _.

Section Engine.

Context {Schema : Type} (E : Env Schema).

Local Open Scope go_scope.

(** *** The server's side *)

Definition setVersionTable (t : option (list string)) (d : Database Schema)
    : Database Schema :=
  mkDatabase t (schema d).

(** The database once [createTableStmt] has run on it: the table is
    created, empty, unless it is there. *)
Definition ensured (d : Database Schema) : Database Schema :=
  match migration_version d with
  | Some _ => d
  | None => setVersionTable (Some []) d
  end.

(** Executing one statement on a database.  The two statements the engine
    itself sends about its table have their SQL meaning; every other text
    is the environment's business. *)
Definition run (query : string) (d : Database Schema)
    : Database Schema + error :=
  if String.eqb query createTableStmt then inl (ensured d)
  else if String.eqb query dropLegacyStmt then inl (setVersionTable None d)
  else sql E query d.

(** The row [legacyExistsQuery] yields. *)
Definition tableExists (d : Database Schema) : bool + error :=
  inl (match migration_version d with Some _ => true | None => false end).

(** [Scan] of one value into an [int] (of 64 bits): the text is converted
    with [strconv.ParseInt], and a text that is not a number of the range
    of an [int] is an error.  The message is Go's without the column name
    and the value, which Go puts in quotes. *)
Definition scanInt (value : string) : Z + error :=
  match strconv.ParseInt value with
  | inl n => inl n
  | inr e =>
      inr ("sql: Scan error on column index 0: converting driver.Value to a int: "
           ++ e)%string
  end.

(** The row [legacyVersionQuery] yields, as [Scan] into an [int] sees it:
    the first row, converted, and an error when the table is missing or
    empty or the value does not convert. *)
Definition firstVersion (d : Database Schema) : Z + error :=
  match migration_version d with
  | None => inr "pq: relation migration_version does not exist"
  | Some [] => inr "sql: no rows in result set"
  | Some (value :: _) => scanInt value
  end.

(** *** The calls on [*sql.DB] and [*sql.Tx] *)

Definition popFault (w : World Schema) : option error * World Schema :=
  match faults w with
  | [] => (None, w)
  | f :: rest => (f, mkWorld (data w) rest)
  end.

(** [db.Exec(query)], outside any transaction: the statement takes effect
    at once, or fails and leaves the database as it was. *)
Definition Exec (query : string) : M Schema (option error) := fun w =>
  let (f, w1) := popFault w in
  match f with
  | Some e => (Some e, w1, [(DBExec query, Some e)])
  | None =>
      match run query (data w1) with
      | inl d => (None, mkWorld d (faults w1), [(DBExec query, None)])
      | inr e => (Some e, w1, [(DBExec query, Some e)])
      end
  end.

(** [db.QueryRow(query).Scan(&x)], with [row] the meaning of [query]. *)
Definition QueryRowScan {A : Type} (query : string)
    (row : Database Schema -> A + error) : M Schema (A + error) := fun w =>
  let (f, w1) := popFault w in
  match f with
  | Some e => (inr e, w1, [(DBQueryRow query, Some e)])
  | None =>
      match row (data w1) with
      | inl a => (inl a, w1, [(DBQueryRow query, None)])
      | inr e => (inr e, w1, [(DBQueryRow query, Some e)])
      end
  end.

(** [db.Begin()]. *)
Definition Begin : M Schema (Tx Schema + error) := fun w =>
  let (f, w1) := popFault w in
  match f with
  | Some e => (inr e, w1, [(DBBegin, Some e)])
  | None => (inl (mkTx (data w1)), w1, [(DBBegin, None)])
  end.

(** [tx.Exec(query)]: the statement acts on the transaction's view only. *)
Definition Tx_Exec (tx : Tx Schema) (query : string)
    : M Schema (Tx Schema * option error) := fun w =>
  let (f, w1) := popFault w in
  match f with
  | Some e => (tx, Some e, w1, [(TxExec query, Some e)])
  | None =>
      match run query (working tx) with
      | inl d => (mkTx d, None, w1, [(TxExec query, None)])
      | inr e => (tx, Some e, w1, [(TxExec query, Some e)])
      end
  end.

(** [tx.Commit()]: the transaction's view becomes the database; a commit
    that fails leaves the database as it was before [Begin]. *)
Definition Commit (tx : Tx Schema) : M Schema (option error) := fun w =>
  let (f, w1) := popFault w in
  match f with
  | Some e => (Some e, w1, [(TxCommit, Some e)])
  | None => (None, mkWorld (working tx) (faults w1), [(TxCommit, None)])
  end.

(** [tx.Rollback()]: the transaction's view is dropped, also when the
    call reports an error (the server aborts what it cannot roll back). *)
Definition Rollback (tx : Tx Schema) : M Schema (option error) := fun w =>
  let (f, w1) := popFault w in
  (f, w1, [(TxRollback, f)]).

(** [fmt.Printf(format, err)] with the text already formatted. *)
Definition printf (out : string) : M Schema unit := fun w =>
  (tt, w, [(Printf out, None)]).

(** *** The methods *)

Definition NewMigrator {LockFactory Strategy : Type}
    (lockFactory : LockFactory) (strategy : Strategy)
    (migrations : list string) : migrator LockFactory Strategy :=
  let migrations :=
    if Nat.eqb (length migrations) 0 then AssetNames E else migrations in
  mkMigrator lockFactory strategy "migrations" migrations.

Definition checkOrCreateSchemaMigrationsTable : M Schema (option error) :=
  Exec createTableStmt.

Definition CurrentVersion : M Schema (Z * option error) :=
  err <- checkOrCreateSchemaMigrationsTable ;;
  match err with
  | Some e => ret (0%Z, Some e)
  | None =>
      _ <- Exec selectVersionsStmt ;;
      ret (0%Z, None)
  end.

Definition SupportedVersion : M Schema (Z * option error) := ret (0%Z, None).

Definition Down (version : Z) : M Schema (option error) :=
  err <- checkOrCreateSchemaMigrationsTable ;;
  match err with
  | Some e => ret (Some e)
  | None => ret None
  end.

Definition existLegacyVersion : M Schema bool :=
  r <- QueryRowScan legacyExistsQuery tableExists ;;
  ret (match r with
       | inr _ => true
       | inl exists_ => exists_
       end).

Definition upgradeError (dbVersion : Z) : error :=
  ("Must upgrade from db version " ++ fmt.d oldMigrationLastVersion
    ++ " (concourse 3.6.0), current db version: " ++ fmt.d dbVersion)%string.

Definition checkLegacyVersion : M Schema (Z * option error) :=
  exists_ <- existLegacyVersion ;;
  if negb exists_ then ret ((-1)%Z, None)
  else
    r <- QueryRowScan legacyVersionQuery firstVersion ;;
    match r with
    | inr _ => ret ((-1)%Z, None)
    | inl dbVersion =>
        if negb (Z.eqb dbVersion oldMigrationLastVersion) then
          ret ((-1)%Z, Some (upgradeError dbVersion))
        else
          err <- Exec dropLegacyStmt ;;
          match err with
          | Some e => ret ((-1)%Z, Some e)
          | None => ret (newMigrationStartVersion, None)
          end
    end.

Definition ParseFile (migrationFileName : string) : list string + error :=
  match Asset E migrationFileName with
  | inr err => inr err
  | inl migrationFileContents =>
      inl (strings.Split migrationFileContents ";"%char)
  end.

(** The loop of [runTransaction] over the statements. *)
Fixpoint txStatements (tx : Tx Schema) (statements : list string)
    : M Schema (Tx Schema * option error) :=
  match statements with
  | [] => ret (tx, None)
  | statement :: rest =>
      '(tx1, migrationErr) <- Tx_Exec tx statement ;;
      match migrationErr with
      | Some e => ret (tx1, Some e)
      | None => txStatements tx1 rest
      end
  end.

(** The function [runTransaction] defers, with the result it computes.
    [err] is the error of [Begin], which is [nil] where it runs. *)
Definition deferred (tx : Tx Schema) (migrationErr err : option error)
    : M Schema (option error) :=
  match migrationErr with
  | Some _ =>
      _ <- Rollback tx ;;
      ret err
  | None =>
      commitErr <- Commit tx ;;
      match commitErr with
      | Some ce =>
          _ <- printf ("err2: " ++ ce)%string ;;
          ret (Some ce)
      | None => ret None
      end
  end.

(** [runTransaction] returns what its own [return] statements give: the
    result of the deferred function is dropped by [defer]. *)
Definition runTransaction (statements : list string)
    : M Schema (option error) :=
  r <- Begin ;;
  match r with
  | inr err => ret (Some err)
  | inl tx =>
      '(tx1, migrationErr) <- txStatements tx statements ;;
      _ <- deferred tx1 migrationErr None ;;
      ret migrationErr
  end.

(** The loop of [Up] over [statements[1:]] of a unit marked
    [noTransaction]. *)
Fixpoint execStatements (statements : list string) : M Schema (option error) :=
  match statements with
  | [] => ret None
  | statement :: rest =>
      err <- Exec statement ;;
      match err with
      | Some e =>
          _ <- printf ("err4: " ++ e)%string ;;
          ret (Some e)
      | None => execStatements rest
      end
  end.

(** One iteration of the loop of [Up]: [None] lets the loop go on. *)
Definition applyMigration (migration : string) : M Schema (option Outcome) :=
  match ParseFile migration with
  | inr err => ret (Some (Returned (Some err)))
  | inl statements =>
      match statements with
      | [] => ret (Some (Panicked "index out of range [0] with length 0"))
      | first :: others =>
          if String.eqb first noTransaction then
            err <- execStatements others ;;
            match err with
            | Some e => ret (Some (Returned (Some e)))
            | None => ret None
            end
          else
            err <- runTransaction statements ;;
            match err with
            | Some e => ret (Some (Returned (Some e)))
            | None => ret None
            end
      end
  end.

(** The loop of [Up] over [self.migrationFiles]. *)
Fixpoint applyMigrations (files : list string) : M Schema Outcome :=
  match files with
  | [] => ret (Returned None)
  | migration :: rest =>
      stop <- applyMigration migration ;;
      match stop with
      | Some outcome => ret outcome
      | None => applyMigrations rest
      end
  end.

Definition Up {LockFactory Strategy : Type}
    (self : migrator LockFactory Strategy) : M Schema Outcome :=
  err <- checkOrCreateSchemaMigrationsTable ;;
  match err with
  | Some e => ret (Returned (Some e))
  | None =>
      '(_, err) <- checkLegacyVersion ;;
      match err with
      | Some e => ret (Returned (Some e))
      | None => applyMigrations (migrationFiles self)
      end
  end.

End Engine.

(** ** Reading a run *)

(** The [version] values the Version Store holds: none when the table is
    missing. *)
Definition versionRows {Schema : Type} (d : Database Schema) : list string :=
  match migration_version d with
  | Some rows => rows
  | None => []
  end.

(** The second database holds no [version] row the first one lacks: it has
    the same rows, or none. *)
Definition noNewRows {Schema : Type} (d d' : Database Schema) : Prop :=
  versionRows d' = versionRows d \/ versionRows d' = [].

(** The statements a trace sent through [tx.Exec], oldest first. *)
Fixpoint txQueries (t : list Event) : list string :=
  match t with
  | [] => []
  | (TxExec query, _) :: rest => query :: txQueries rest
  | _ :: rest => txQueries rest
  end.

(** The events of statements that ran through [tx.Exec] without error. *)
Definition succeeded (statements : list string) : list Event :=
  map (fun query => (TxExec query, None)) statements.

(** The calls of a trace that reach the database. *)
Definition isDatabaseCall (c : Call) : bool :=
  match c with
  | Printf _ | LockAcquire | LockRelease => false
  | _ => true
  end.
Definition databaseCalls (t : list Event) : list Call :=
  filter isDatabaseCall (calls t).

Definition isLockCall (c : Call) : bool :=
  match c with
  | LockAcquire | LockRelease => true
  | _ => false
  end.

Definition isQuery (c : Call) : bool :=
  match c with
  | DBQueryRow _ => true
  | _ => false
  end.

(** The calls whose error [Up] hands to its caller. *)
Definition isReported (c : Call) : bool :=
  match c with
  | DBExec _ | DBBegin | TxExec _ => true
  | _ => false
  end.

Definition isRollback (ev : Event) : bool :=
  match fst ev with
  | TxRollback => true
  | _ => false
  end.

(** Events without a failed [Exec], [Begin] or [tx.Exec]. *)
Definition quiet (t : list Event) : Prop :=
  forall c e, In (c, Some e) t -> isReported c = false.

(** After the first failed call among those, a trace has nothing but the
    rollback of the open transaction. *)
Fixpoint stopsAtFailure (t : list Event) : bool :=
  match t with
  | [] => true
  | (c, Some _) :: rest =>
      if isReported c then forallb isRollback rest else stopsAtFailure rest
  | (_, None) :: rest => stopsAtFailure rest
  end.

Section Units.

Context {Schema : Type} (E : Env Schema).

(** The statements of a unit, none when its asset does not load. *)
Definition statementsOf (migration : string) : list string :=
  match ParseFile E migration with
  | inl statements => statements
  | inr _ => []
  end.

Definition allStatements (files : list string) : list string :=
  flat_map statementsOf files.

(** The database calls of one unit that is applied in a transaction and
    committed. *)
Definition unitCalls (migration : string) : list Call :=
  DBBegin :: map TxExec (statementsOf migration) ++ [TxCommit].

End Units.

(** ** The shapes of runs

    How the methods can end, as relations between the world a method starts
    in and its result, final world and events.  That every run has one of
    these shapes is proved below. *)

Section Runs.

Context {Schema : Type} (E : Env Schema).

(** The three ways [runTransaction] ends. *)
Inductive TxEnd (statements : list string) (w : World Schema)
    : option error * World Schema * list Event -> Prop :=
| BeginFailed e w1 :
    data w1 = data w ->
    TxEnd statements w (Some e, w1, [(DBBegin, Some e)])
| StatementFailed done query rest e f w1 :
    statements = done ++ query :: rest ->
    data w1 = data w ->
    TxEnd statements w
      (Some e, w1,
       (DBBegin, None) :: succeeded done
         ++ [(TxExec query, Some e); (TxRollback, f)])
| CommitFailed ce w1 :
    data w1 = data w ->
    TxEnd statements w
      (None, w1,
       (DBBegin, None) :: succeeded statements
         ++ [(TxCommit, Some ce); (Printf ("err2: " ++ ce), None)])
| Committed tx w0 w1 :
    data w1 = working (fst (result (txStatements E tx statements w0))) ->
    working tx = data w ->
    TxEnd statements w
      (None, w1, (DBBegin, None) :: succeeded statements ++ [(TxCommit, None)]).

(** The runs of the loop: it ends with the list, at an asset that does
    not load, or at a unit whose transaction returns an error; a unit
    whose transaction returns [nil] is followed by the next one. *)
Inductive Applied
    : list string -> World Schema ->
      Outcome * World Schema * list Event -> Prop :=
| AppliedAll w :
    Applied [] w (Returned None, w, [])
| AssetMissing migration rest err w :
    Asset E migration = inr err ->
    Applied (migration :: rest) w (Returned (Some err), w, [])
| UnitFailed migration rest body e w w1 t :
    Asset E migration = inl body ->
    TxEnd (strings.Split body ";"%char) w (Some e, w1, t) ->
    Applied (migration :: rest) w (Returned (Some e), w1, t)
| UnitApplied migration rest body w w1 t outcome w2 t2 :
    Asset E migration = inl body ->
    TxEnd (strings.Split body ";"%char) w (None, w1, t) ->
    Applied rest w1 (outcome, w2, t2) ->
    Applied (migration :: rest) w (outcome, w2, t ++ t2).

(** The ways [checkLegacyVersion] ends. *)
Inductive LegacyEnd (w : World Schema)
    : Z * option error * World Schema * list Event -> Prop :=
| NoTable w1 :
    data w1 = data w ->
    migration_version (data w) = None ->
    LegacyEnd w ((-1)%Z, None, w1, [(DBQueryRow legacyExistsQuery, None)])
| Unread f1 e2 w1 :
    data w1 = data w ->
    LegacyEnd w
      ((-1)%Z, None, w1,
       [(DBQueryRow legacyExistsQuery, f1);
        (DBQueryRow legacyVersionQuery, Some e2)])
| Unsupported f1 v w1 :
    data w1 = data w ->
    firstVersion (data w) = inl v ->
    v <> oldMigrationLastVersion ->
    LegacyEnd w
      ((-1)%Z, Some (upgradeError v), w1,
       [(DBQueryRow legacyExistsQuery, f1);
        (DBQueryRow legacyVersionQuery, None)])
| Undropped f1 e w1 :
    data w1 = data w ->
    firstVersion (data w) = inl oldMigrationLastVersion ->
    LegacyEnd w
      ((-1)%Z, Some e, w1,
       [(DBQueryRow legacyExistsQuery, f1);
        (DBQueryRow legacyVersionQuery, None);
        (DBExec dropLegacyStmt, Some e)])
| Dropped f1 w1 :
    data w1 = setVersionTable None (data w) ->
    firstVersion (data w) = inl oldMigrationLastVersion ->
    LegacyEnd w
      (newMigrationStartVersion, None, w1,
       [(DBQueryRow legacyExistsQuery, f1);
        (DBQueryRow legacyVersionQuery, None);
        (DBExec dropLegacyStmt, None)]).

(** The ways [Up] ends.  After the table is ensured the legacy check
    always reads the version row; [Up] stops when it reads a version
    other than [oldMigrationLastVersion] or cannot drop the table, and
    runs the loop otherwise: on the ensured database when the row could
    not be read, on the database without the table when it read
    [oldMigrationLastVersion]. *)
Inductive UpEnd (files : list string) (w : World Schema)
    : Outcome * World Schema * list Event -> Prop :=
| EnsureFailed e w1 :
    data w1 = data w ->
    UpEnd files w
      (Returned (Some e), w1, [(DBExec createTableStmt, Some e)])
| LegacyUnsupported f1 v w1 :
    data w1 = ensured (data w) ->
    firstVersion (ensured (data w)) = inl v ->
    v <> oldMigrationLastVersion ->
    UpEnd files w
      (Returned (Some (upgradeError v)), w1,
       [(DBExec createTableStmt, None); (DBQueryRow legacyExistsQuery, f1);
        (DBQueryRow legacyVersionQuery, None)])
| DropFailed f1 e w1 :
    data w1 = ensured (data w) ->
    firstVersion (ensured (data w)) = inl oldMigrationLastVersion ->
    UpEnd files w
      (Returned (Some e), w1,
       [(DBExec createTableStmt, None); (DBQueryRow legacyExistsQuery, f1);
        (DBQueryRow legacyVersionQuery, None);
        (DBExec dropLegacyStmt, Some e)])
| VersionUnread f1 e2 w1 r :
    data w1 = ensured (data w) ->
    Applied files w1 r ->
    r = applyMigrations E files w1 ->
    UpEnd files w
      (result r, world r,
       [(DBExec createTableStmt, None); (DBQueryRow legacyExistsQuery, f1);
        (DBQueryRow legacyVersionQuery, Some e2)] ++ events r)
| LegacyDropped f1 w1 r :
    data w1 = setVersionTable None (data w) ->
    firstVersion (ensured (data w)) = inl oldMigrationLastVersion ->
    Applied files w1 r ->
    r = applyMigrations E files w1 ->
    UpEnd files w
      (result r, world r,
       [(DBExec createTableStmt, None); (DBQueryRow legacyExistsQuery, f1);
        (DBQueryRow legacyVersionQuery, None);
        (DBExec dropLegacyStmt, None)] ++ events r).

End Runs.

(** The calls of [Up] before its loop, without and with the drop of the
    legacy table. *)
Definition preambleCalls (dropped : bool) : list Call :=
  [DBExec createTableStmt; DBQueryRow legacyExistsQuery;
   DBQueryRow legacyVersionQuery]
  ++ (if dropped then [DBExec dropLegacyStmt] else []).

(** ** What the specification asks for, in its own words *)

Module Spec.

(** The key of a unit: the number its asset name starts with. *)
Definition digit (c : ascii) : option Z :=
  let n := Z.of_nat (nat_of_ascii c) in
  if ((48 <=? n) && (n <=? 57))%Z then Some (n - 48)%Z else None.

Fixpoint leadingNumber (acc : Z) (s : string) : Z :=
  match s with
  | EmptyString => acc
  | String c s' =>
      match digit c with
      | Some k => leadingNumber (10 * acc + k)%Z s'
      | None => acc
      end
  end.

Definition unitKey (name : string) : Z := leadingNumber 0 name.

(** [currentVersion()]: the greatest recorded version, or the value that
    stands for no migration applied. *)
Definition currentVersion (none : Z) (rows : list Z) : Z :=
  match rows with
  | [] => none
  | v :: vs => fold_left Z.max vs v
  end.

(** The units [Up] is to apply: those with a key above both the current
    version and the legacy floor. *)
Definition pending (current floor : Z) (files : list string) : list string :=
  filter (fun f => (Z.max current floor <? unitKey f)%Z) files.

(** The lock discipline: the lock is taken before anything else happens
    and released last. *)
Definition lockDisciplined (cs : list Call) : bool :=
  match cs with
  | LockAcquire :: rest =>
      match rev rest with
      | LockRelease :: _ => true
      | _ => false
      end
  | _ => false
  end.

End Spec.

(** ** What the statements of units amount to

    The effect of statement lists and of unit lists on a database, without
    a connection: the yardstick for the runs of the engine on a connection
    that has no faults. *)

Section Meaning.

Context {Schema : Type} (E : Env Schema).

(** The statements one after another, all or nothing: the database after
    the last one, or the error of the first that fails. *)
Fixpoint runStatements (statements : list string) (d : Database Schema)
    : Database Schema + error :=
  match statements with
  | [] => inl d
  | query :: rest =>
      match run E query d with
      | inl d' => runStatements rest d'
      | inr e => inr e
      end
  end.

(** The units one after another, each all or nothing, until an asset does
    not load or a unit fails: the units before it keep their effect. *)
Fixpoint applyUnits (files : list string) (d : Database Schema)
    : Database Schema * option error :=
  match files with
  | [] => (d, None)
  | migration :: rest =>
      match ParseFile E migration with
      | inr err => (d, Some err)
      | inl statements =>
          match runStatements statements d with
          | inl d' => applyUnits rest d'
          | inr e => (d, Some e)
          end
      end
  end.

End Meaning.

(** ** A small database to run the engine on *)

Module Demo.

(** The schema is the list of the tables created so far. *)
Definition Schema : Type := list string.

(** The name in [CREATE TABLE name ...]: the text up to the first space. *)
Fixpoint word (s : string) : string :=
  match s with
  | EmptyString => EmptyString
  | String c s' =>
      if Ascii.eqb c " "%char then EmptyString else String c (word s')
  end.

(** The server knows the empty statement and [CREATE TABLE], which fails
    on a table that is there already; anything else is a syntax error. *)
Definition execute (query : string) (d : Database Schema)
    : Database Schema + error :=
  if String.eqb query "" then inl d
  else if String.prefix "CREATE TABLE " query then
    let name := word (substring 13 (String.length query) query) in
    if existsb (String.eqb name) (schema d) then
      inr ("pq: relation " ++ name ++ " already exists")%string
    else inl (mkDatabase (migration_version d) (name :: schema d))
  else inr ("pq: syntax error at or near " ++ word query)%string.

Definition files : list (string * string) :=
  [ ("1_create_foo.up.sql", "CREATE TABLE foo (id int);");
    ("2_create_index.up.sql", "NO_TRANSACTION;CREATE TABLE bar (id int)");
    ("3_three_tables.up.sql",
     "CREATE TABLE a (x int);CREATE TABLE a (y int);CREATE TABLE b (x int)") ].

Fixpoint lookup (name : string) (l : list (string * string)) : string + error :=
  match l with
  | [] => inr ("Asset " ++ name ++ " not found")%string
  | (n, body) :: rest =>
      if String.eqb n name then inl body else lookup name rest
  end.

Definition env : Env Schema :=
  mkEnv execute (fun name => lookup name files) (map fst files).

(** A migrator over the named units; the lock factory and the strategy
    are absent. *)
Definition migratorOf (names : list string) : migrator unit unit :=
  NewMigrator env tt tt names.

(** A database without any table, one whose [migration_version] is the
    legacy table at version [v], and one with recorded versions. *)
Definition fresh : World Schema := mkWorld (mkDatabase None []) [].
Definition legacy (v : Z) : World Schema :=
  mkWorld (mkDatabase (Some [fmt.d v]) []) [].
Definition tracked (rows : list Z) : World Schema :=
  mkWorld (mkDatabase (Some (map fmt.d rows)) ["foo"]) [].

Definition withFaults (fs : list (option error)) (w : World Schema)
    : World Schema :=
  mkWorld (data w) fs.

(** [Up] on a database without any table, and [Up] again on what the
    first call left. *)
Definition fooOnly : migrator unit unit := migratorOf ["1_create_foo.up.sql"].
Definition once := Up env fooOnly fresh.
Definition twice := Up env fooOnly (world once).

(** [Up] on a database at the legacy version. *)
Definition bridged := Up env fooOnly (legacy 189).

(** [Up] on a database at another legacy version, with a connection that
    breaks when the version row is read. *)
Definition unread :=
  Up env fooOnly
    (withFaults [None; None; Some "driver: bad connection"] (legacy 42)).

(** [Up] on a database whose table holds a value beyond the range of an
    [int]. *)
Definition overflowing : World Schema :=
  mkWorld (mkDatabase (Some ["9223372036854775808"]) []) [].
Definition overflowed := Up env fooOnly overflowing.

(** [Up] over the unit that starts with the marker. *)
Definition marked := Up env (migratorOf ["2_create_index.up.sql"]) fresh.

(** The unit of three statements, the second of which fails. *)
Definition threeTables : list string :=
  statementsOf env "3_three_tables.up.sql".

End Demo.

(** * The top bar of the web interface, [web/elm/src/TopBar.elm]

    The Elm module as functions on its [Model].  The types it takes from
    other modules ([Concourse.Pipeline], [Concourse.PipelineGroup],
    [Concourse.User], [Erl.Url], ...) are parameters, with the fields and
    library functions the module uses of them; commands and subscriptions,
    which Elm keeps opaque, are the descriptions of what each one asks the
    runtime to do.  [Debug.log] returns its second argument and is left
    out. *)

Module TopBar.

(** Elm's [Result]. *)
Inductive Result (X A : Type) : Type :=
| Err (x : X)
| Ok (a : A).
Arguments Err {X A} _.
Arguments Ok {X A} _.

(** [List.member] on strings, and [List.isEmpty]. *)
Definition member (x : string) (xs : list string) : bool :=
  existsb (String.eqb x) xs.

Definition isEmpty {A : Type} (xs : list A) : bool :=
  match xs with
  | [] => true
  | _ :: _ => false
  end.

Section Program.

Context {Pipeline PipelineGroup PipelineIdentifier User : Type}.
Context {HttpError UserError Url RouteRest Time : Type}.

(** The fields [.groups], [.url] and [.paused] of a [Concourse.Pipeline]
    and [.name] of a [Concourse.PipelineGroup]. *)
Variable pipelineGroups : Pipeline -> list PipelineGroup.
Variable pipelineUrl : Pipeline -> string.
Variable pipelinePaused : Pipeline -> bool.
Variable groupName : PipelineGroup -> string.

(** Of an [Erl.Url]: [Dict.get key url.query], the field [.hash], and the
    functions [Erl.removeQuery], [Erl.addQuery] and [Erl.queryToString]. *)
Variable queryGet : string -> Url -> option string.
Variable urlHash : Url -> string.
Variable removeQuery : string -> Url -> Url.
Variable addQuery : string -> string -> Url -> Url.
Variable queryToString : Url -> string.

(** A [Routes.ConcourseRoute]: the field [parsed], and its other fields. *)
Record ConcourseRoute : Type := mkRoute {
  parsed : Url;
  routeRest : RouteRest
}.

Inductive UserState : Type :=
| UserStateLoggedIn (user : User)
| UserStateLoggedOut
| UserStateUnknown.

Inductive GroupsState : Type :=
| GroupsStateSelected (groups : list string)
| GroupsStateNotLoaded.

Inductive Msg : Type :=
| Noop
| PipelineFetched (r : Result HttpError Pipeline)
| UserFetched (r : Result UserError User)
| FetchPipeline (pid : PipelineIdentifier)
| ToggleSidebar
| ToggleGroup (group : PipelineGroup)
| SetGroups (groups : list string)
| SelectGroups (groups : list string)
| LogOut
| NavTo (url : string)
| LoggedOut (r : Result UserError unit)
| ToggleUserMenu
| SetViewingPipeline (vp : bool).

Set Warnings "-register-all".

(** What a [Cmd Msg] of this module asks for: nothing, several commands, a
    change of the URL, a message on an outgoing port, or one of the three
    requests whose answer comes back as a message. *)
Inductive Cmd : Type :=
| CmdNone
| CmdBatch (cmds : list Cmd)
| NavigationNewUrl (url : string)
| NavigationModifyUrl (url : string)
| PortToggleSidebar
| PortGroupsChanged (groups : list string)
| PortNavigateTo (url : string)
| RequestPipeline (pid : PipelineIdentifier)
| RequestUser
| RequestLogOut.

(** What a [Sub Msg] of this module listens to: nothing, several
    subscriptions, an incoming port, or the clock every so many
    milliseconds. *)
Inductive Sub : Type :=
| SubNone
| SubBatch (subs : list Sub)
| PortSelectGroups (tagger : list string -> Msg)
| PortSetViewingPipeline (tagger : bool -> Msg)
| TimeEvery (milliseconds : Z) (tagger : Time -> Msg).

(** The ports of the module. *)
Definition toggleSidebar (_ : unit) : Cmd := PortToggleSidebar.
Definition groupsChanged (groups : list string) : Cmd :=
  PortGroupsChanged groups.
Definition selectGroups (tagger : list string -> Msg) : Sub :=
  PortSelectGroups tagger.
Definition navigateTo (url : string) : Cmd := PortNavigateTo url.
Definition setViewingPipeline (tagger : bool -> Msg) : Sub :=
  PortSetViewingPipeline tagger.

Record Ports : Type := mkPorts {
  ports_toggleSidebar : unit -> Cmd;
  ports_setGroups : list string -> Cmd;
  ports_selectGroups : (list string -> Msg) -> Sub;
  ports_navigateTo : string -> Cmd;
  ports_setViewingPipeline : (bool -> Msg) -> Sub
}.

Record Model : Type := mkModel {
  pipelineIdentifier : option PipelineIdentifier;
  viewingPipeline : bool;
  ports : Ports;
  location : ConcourseRoute;
  groupsState : GroupsState;
  selectedGroups : list string;
  pipeline : option Pipeline;
  userState : UserState;
  userMenuVisible : bool
}.

Definition fetchPipeline (pipelineIdentifier : PipelineIdentifier) : Cmd :=
  RequestPipeline pipelineIdentifier.
Definition fetchUser : Cmd := RequestUser.
Definition logOut : Cmd := RequestLogOut.

Definition init (initialLocation : ConcourseRoute) : Model * Cmd :=
  ( mkModel None false
      (mkPorts toggleSidebar groupsChanged selectGroups navigateTo
         setViewingPipeline)
      initialLocation GroupsStateNotLoaded [] None UserStateUnknown false,
    fetchUser ).

Definition setGroupsInLocation (loc : ConcourseRoute) (groups : list string)
    : ConcourseRoute :=
  let updatedUrl :=
    match hd_error groups with
    | None => removeQuery "groups" (parsed loc)
    | Some group => addQuery "groups" group (parsed loc)
    end in
  mkRoute updatedUrl (routeRest loc).

Definition locationToHistory (p : Pipeline) (route : ConcourseRoute)
    : string :=
  (pipelineUrl p ++ queryToString (parsed route)
     ++ urlHash (parsed route))%string.

Definition defaultToFirstGroup (groups : list string)
    (mpipeline : option Pipeline) : list string :=
  if isEmpty groups then
    match mpipeline with
    | Some p => firstn 1 (map groupName (pipelineGroups p))
    | None => []
    end
  else groups.

Definition toggleGroup (group : PipelineGroup) (names : list string)
    (mpipeline : option Pipeline) : list string :=
  let toggled :=
    if member (groupName group) names then
      filter (fun name => negb (String.eqb (groupName group) name)) names
    else groupName group :: names in
  defaultToFirstGroup toggled mpipeline.

Definition setGroups (newGroups : list string) (model : Model)
    : Model * Cmd :=
  match pipeline model with
  | Some p =>
      let newUrl :=
        locationToHistory p (setGroupsInLocation (location model) newGroups) in
      ( mkModel (pipelineIdentifier model) (viewingPipeline model)
          (ports model) (location model) (GroupsStateSelected newGroups)
          newGroups (pipeline model) (userState model)
          (userMenuVisible model),
        if viewingPipeline model then
          CmdBatch [NavigationModifyUrl newUrl;
                    ports_setGroups (ports model) newGroups]
        else ports_navigateTo (ports model) newUrl )
  | None => (model, CmdNone)
  end.

Definition setSelectedGroups (groups : list string) (model : Model)
    : Model * Cmd :=
  ( mkModel (pipelineIdentifier model) (viewingPipeline model) (ports model)
      (location model) (groupsState model) groups (pipeline model)
      (userState model) (userMenuVisible model),
    if viewingPipeline model then ports_setGroups (ports model) groups
    else CmdNone ).

Definition urlUpdate (route : ConcourseRoute) (model : Model) : Model * Cmd :=
  ( mkModel (pipelineIdentifier model) (viewingPipeline model) (ports model)
      route (groupsState model)
      match queryGet "groups" (parsed route) with
      | None => []
      | Some group => [group]
      end
      (pipeline model) (userState model) (userMenuVisible model),
    CmdNone ).

Definition withUserState (u : UserState) (model : Model) : Model :=
  mkModel (pipelineIdentifier model) (viewingPipeline model) (ports model)
    (location model) (groupsState model) (selectedGroups model)
    (pipeline model) u (userMenuVisible model).

Definition update (msg : Msg) (model : Model) : Model * Cmd :=
  match msg with
  | Noop => (model, CmdNone)
  | FetchPipeline pid => (model, fetchPipeline pid)
  | UserFetched (Ok user) =>
      (withUserState (UserStateLoggedIn user) model, CmdNone)
  | UserFetched (Err _) =>
      (withUserState UserStateLoggedOut model, CmdNone)
  | PipelineFetched (Ok p) =>
      let firstGroup := hd_error (pipelineGroups p) in
      let model :=
        mkModel (pipelineIdentifier model) (viewingPipeline model)
          (ports model) (location model) (groupsState model)
          (selectedGroups model) (Some p) (userState model)
          (userMenuVisible model) in
      match firstGroup with
      | None => (model, CmdNone)
      | Some group =>
          match groupsState model with
          | GroupsStateNotLoaded => (model, CmdNone)
          | GroupsStateSelected groups =>
              if Nat.ltb 0 (length groups) then setGroups groups model
              else setSelectedGroups [groupName group] model
          end
      end
  | PipelineFetched (Err _) => (model, CmdNone)
  | ToggleSidebar => (model, CmdNone)
  | ToggleGroup group =>
      let newGroups :=
        toggleGroup group (selectedGroups model) (pipeline model) in
      setGroups newGroups model
  | SetGroups groups => setGroups groups model
  | SelectGroups groups => setSelectedGroups groups model
  | LogOut => (model, logOut)
  | LoggedOut (Ok _) =>
      (withUserState UserStateLoggedOut model, NavigationNewUrl "/")
  | NavTo url => (model, NavigationNewUrl url)
  | LoggedOut (Err _) => (model, CmdNone)
  | ToggleUserMenu =>
      ( mkModel (pipelineIdentifier model) (viewingPipeline model)
          (ports model) (location model) (groupsState model)
          (selectedGroups model) (pipeline model) (userState model)
          (negb (userMenuVisible model)),
        CmdNone )
  | SetViewingPipeline vp =>
      ( mkModel (pipelineIdentifier model) vp (ports model) (location model)
          (groupsState model) (selectedGroups model) (pipeline model)
          (userState model) (userMenuVisible model),
        CmdNone )
  end.

Definition subscriptions (model : Model) : Sub :=
  SubBatch
    [ ports_setViewingPipeline (ports model) SetViewingPipeline;
      ports_selectGroups (ports model) SelectGroups;
      match pipelineIdentifier model with
      | None => SubNone
      | Some pid => TimeEvery (5 * 1000) (fun _ => FetchPipeline pid)
      end ].

Definition isPaused (mpipeline : option Pipeline) : bool :=
  match option_map pipelinePaused mpipeline with
  | Some paused => paused
  | None => false
  end.

(** The models the program can be in: the one [init] gives, and those
    [update] and [urlUpdate] make of them. *)
Inductive Reachable (initialLocation : ConcourseRoute) : Model -> Prop :=
| ReachedInit : Reachable initialLocation (fst (init initialLocation))
| ReachedUpdate msg model :
    Reachable initialLocation model ->
    Reachable initialLocation (fst (update msg model))
| ReachedUrlUpdate route model :
    Reachable initialLocation model ->
    Reachable initialLocation (fst (urlUpdate route model)).

End Program.

End TopBar.

(** ** A small pipeline to run the top bar on *)

Module TopBarDemo.

(** A pipeline is the list of its groups, a group is its name, and the
    URL is the list of its query parameters. *)
Definition Pipeline : Type := list string.
Definition Url : Type := list (string * string).

Definition pipelineGroups (p : Pipeline) : list string := p.
Definition pipelineUrl (p : Pipeline) : string := "/teams/main/pipelines/p".
Definition groupName (g : string) : string := g.
Definition queryGet (key : string) (u : Url) : option string :=
  option_map snd (find (fun kv => String.eqb key (fst kv)) u).
Definition urlHash (u : Url) : string := "".
Definition removeQuery (key : string) (u : Url) : Url :=
  filter (fun kv => negb (String.eqb key (fst kv))) u.
Definition addQuery (key value : string) (u : Url) : Url :=
  (key, value) :: removeQuery key u.
Definition queryToString (u : Url) : string :=
  match u with
  | [] => ""
  | (k, v) :: _ => ("?" ++ k ++ "=" ++ v)%string
  end.

Definition Model : Type :=
  @TopBar.Model Pipeline string unit unit unit unit Url unit unit.
Definition Msg : Type := @TopBar.Msg Pipeline string unit unit unit unit.

Definition start : TopBar.ConcourseRoute := TopBar.mkRoute ([] : Url) tt.

Definition update (msg : Msg) (model : Model) :=
  TopBar.update (Time := unit) pipelineGroups pipelineUrl groupName urlHash
    removeQuery addQuery queryToString msg model.

Definition Reachable : Model -> Prop :=
  TopBar.Reachable pipelineGroups pipelineUrl groupName queryGet urlHash
    removeQuery addQuery queryToString start.

(** The model after the pipeline with the groups [build] and [deploy] was
    fetched and the group [deploy] was clicked. *)
Definition loaded : Model :=
  fst (update (TopBar.PipelineFetched (TopBar.Ok ["build"; "deploy"]))
         (fst (TopBar.init start))).
Definition clicked : Model := fst (update (TopBar.ToggleGroup "deploy") loaded).

End TopBarDemo.

(** * Properties *)

(** ** [strings.Split] *)

Module SplitFacts.
Import strings.

Lemma Split_cons s sep :
  Split s sep = fst (cut sep s) :: snd (cut sep s).
Proof. unfold Split. now destruct (cut sep s). Qed.

Lemma Split_String c s sep :
  Split (String c s) sep =
    if Ascii.eqb c sep then EmptyString :: Split s sep
    else String c (hd EmptyString (Split s sep)) :: tl (Split s sep).
Proof.
  unfold Split; simpl. destruct (cut sep s) as [piece pieces].
  now destruct (Ascii.eqb c sep).
Qed.

(** One piece more than there are separators. *)
Lemma Split_length s sep : length (Split s sep) = S (Count s sep).
Proof.
  induction s as [|c s IH]; [reflexivity|].
  rewrite Split_String. simpl Count.
  destruct (Ascii.eqb c sep); simpl.
  - now rewrite IH.
  - rewrite Split_cons in *. simpl in *. exact IH.
Qed.

(** Joining the pieces with the separator gives the text back. *)
Lemma Join_Split s sep : Join (Split s sep) (String sep EmptyString) = s.
Proof.
  induction s as [|c s IH]; [reflexivity|].
  rewrite Split_String. rewrite Split_cons in *.
  destruct (cut sep s) as [piece pieces]; simpl fst in *; simpl snd in *.
  simpl hd; simpl tl.
  destruct (Ascii.eqb_spec c sep) as [->|_].
  - change (Join (EmptyString :: piece :: pieces) (String sep EmptyString))
      with (String sep (Join (piece :: pieces) (String sep EmptyString))).
    now rewrite IH.
  - destruct pieces as [|piece' pieces]; simpl in *; now rewrite IH.
Qed.

(** No piece holds the separator. *)
Lemma Split_pieces s sep :
  Forall (fun piece => Contains piece sep = false) (Split s sep).
Proof.
  induction s as [|c s IH].
  - repeat constructor.
  - rewrite Split_String. rewrite Split_cons in *. simpl hd; simpl tl.
    inversion IH as [|p ps Hp Hps]; subst.
    destruct (Ascii.eqb c sep) eqn:Hc.
    + constructor; [reflexivity|]. now constructor.
    + constructor; [|assumption]. simpl. now rewrite Hc.
Qed.

Lemma Contains_eqb p q sep :
  Contains p sep = false -> Contains q sep = true -> String.eqb p q = false.
Proof.
  intros Hp Hq. destruct (String.eqb_spec p q) as [->|]; congruence.
Qed.

(** The first piece of a text split at [;] is never the marker
    [noTransaction], which ends in [;]. *)
Lemma first_piece_unmarked body first others :
  Split body ";"%char = first :: others ->
  String.eqb first noTransaction = false.
Proof.
  intros H. pose proof (Split_pieces body ";"%char) as HF.
  rewrite H in HF. inversion HF; subst.
  eapply Contains_eqb; [eassumption | reflexivity].
Qed.

End SplitFacts.

(** ** The monad and the calls on the connection *)

Section Calls.

Context {Schema : Type} (E : Env Schema).

Lemma bind_run {A B} (m : M Schema A) (k : A -> M Schema B) w :
  bind m k w =
    (result (k (result (m w)) (world (m w))),
     world (k (result (m w)) (world (m w))),
     events (m w) ++ events (k (result (m w)) (world (m w)))).
Proof.
  unfold bind, result, world, events.
  destruct (m w) as [[a w1] t1]; simpl.
  now destruct (k a w1) as [[b w2] t2].
Qed.

Lemma bind_eq {A B} (m : M Schema A) (k : A -> M Schema B) w a w1 t1 :
  m w = (a, w1, t1) ->
  bind m k w = (result (k a w1), world (k a w1), t1 ++ events (k a w1)).
Proof. intros H. rewrite bind_run, H. reflexivity. Qed.

Lemma result_mk {A} (a : A) (w : World Schema) t : result (a, w, t) = a.
Proof. reflexivity. Qed.
Lemma world_mk {A} (a : A) (w : World Schema) t : world (a, w, t) = w.
Proof. reflexivity. Qed.
Lemma events_mk {A} (a : A) (w : World Schema) t : events (a, w, t) = t.
Proof. reflexivity. Qed.

Lemma run_eta {A} (r : A * World Schema * list Event) :
  r = (result r, world r, events r).
Proof. now destruct r as [[a w] t]. Qed.

Lemma popFault_data (w : World Schema) : data (snd (popFault w)) = data w.
Proof. unfold popFault. now destruct (faults w). Qed.

(** Only [Exec] outside a transaction and [Commit] change the database. *)
Lemma QueryRowScan_data {A} query (row : Database Schema -> A + error)
    (w : World Schema) :
  data (world (QueryRowScan query row w)) = data w.
Proof.
  unfold QueryRowScan. pose proof (popFault_data w) as H.
  destruct (popFault w) as [[e|] w1]; simpl in *; [exact H|].
  now destruct (row (data w1)).
Qed.

Lemma Begin_data (w : World Schema) : data (world (Begin w)) = data w.
Proof.
  unfold Begin. pose proof (popFault_data w) as H.
  now destruct (popFault w) as [[e|] w1].
Qed.

Lemma Begin_working (w : World Schema) tx :
  result (Begin w) = inl tx -> working tx = data w.
Proof.
  unfold Begin. pose proof (popFault_data w) as H.
  destruct (popFault w) as [[e|] w1]; simpl in *; [discriminate|].
  intros [= <-]. exact H.
Qed.

Lemma Tx_Exec_data tx query w :
  data (world (Tx_Exec E tx query w)) = data w.
Proof.
  unfold Tx_Exec. pose proof (popFault_data w) as H.
  destruct (popFault w) as [[e|] w1]; simpl in *; [exact H|].
  now destruct (run E query (working tx)).
Qed.

Lemma Rollback_data (tx : Tx Schema) w : data (world (Rollback tx w)) = data w.
Proof.
  unfold Rollback. pose proof (popFault_data w) as H.
  now destruct (popFault w) as [f w1].
Qed.

End Calls.

(** ** One unit in a transaction *)

Section Transactions.

Context {Schema : Type} (E : Env Schema).

Lemma txStatements_data statements : forall tx w,
  data (world (txStatements E tx statements w)) = data w.
Proof.
  induction statements as [|q rest IH]; intros tx w; [reflexivity|].
  cbn [txStatements]. rewrite bind_run.
  pose proof (Tx_Exec_data E tx q w) as H.
  destruct (Tx_Exec E tx q w) as [[[tx1 [e|]] w1] t1];
    unfold result, world in *; simpl in *; [exact H|].
  rewrite <- H. apply IH.
Qed.

(** The loop stops at the first statement that fails: the statements
    before it succeeded, and it is the last one sent. *)
Lemma txStatements_events statements : forall tx w,
  match snd (result (txStatements E tx statements w)) with
  | None => events (txStatements E tx statements w) = succeeded statements
  | Some e =>
      exists done query rest,
        statements = done ++ query :: rest /\
        events (txStatements E tx statements w)
          = succeeded done ++ [(TxExec query, Some e)]
  end.
Proof.
  induction statements as [|q rest IH]; intros tx w; [reflexivity|].
  cbn [txStatements]. rewrite bind_run.
  assert (Hev : events (Tx_Exec E tx q w)
                = [(TxExec q, snd (result (Tx_Exec E tx q w)))]).
  { unfold Tx_Exec. destruct (popFault w) as [[e|] w1]; [reflexivity|].
    now destruct (run E q (working tx)). }
  destruct (Tx_Exec E tx q w) as [[[tx1 [e|]] w1] t1];
    unfold result, world, events in *; simpl in *; subst t1.
  - exists [], q, rest. now split.
  - specialize (IH tx1 w1).
    destruct (txStatements E tx1 rest w1) as [[[tx2 [e|]] w2] t2]; simpl in *.
    + destruct IH as (done & query & rest' & -> & ->).
      exists (q :: done), query, rest'. now split.
    + now rewrite IH.
Qed.

Lemma runTransaction_end statements w :
  TxEnd E statements w (runTransaction E statements w).
Proof.
  unfold runTransaction. rewrite bind_run.
  pose proof (Begin_data w) as Hd. pose proof (Begin_working w) as Hw.
  assert (Hev : events (Begin w)
                = [(DBBegin, match result (Begin w) with
                             | inl _ => None | inr e => Some e end)]).
  { unfold Begin. now destruct (popFault w) as [[e|] w1]. }
  destruct (Begin w) as [[[tx|e] w1] t1];
    unfold result, world, events in *; simpl in *; subst t1.
  2:{ now constructor. }
  specialize (Hw tx eq_refl).
  rewrite bind_run.
  pose proof (txStatements_data statements tx w1) as Hd2.
  pose proof (txStatements_events statements tx w1) as Hev2.
  remember (txStatements E tx statements w1) as r eqn:Hr.
  destruct r as [[[tx2 [e|]] w2] t2];
    unfold result, world, events in *; simpl in *.
  - destruct Hev2 as (done & query & rest & Hs & ->).
    unfold deferred, bind, ret, Rollback. pose proof (popFault_data w2) as Hp.
    destruct (popFault w2) as [f w3]; simpl in *.
    rewrite <- app_assoc. simpl.
    eapply StatementFailed; [eassumption|congruence].
  - subst t2. unfold deferred, bind, ret, Commit, printf.
    pose proof (popFault_data w2) as Hp.
    destruct (popFault w2) as [[ce|] w3]; simpl in *.
    + apply (CommitFailed E statements w ce). congruence.
    + eapply (Committed E _ _ tx w1); [|assumption].
      rewrite <- Hr. reflexivity.
Qed.

End Transactions.

(** ** The loop of [Up] *)

Section Loop.

Context {Schema : Type} (E : Env Schema).

(** A unit is always applied by [runTransaction]: the branch of [Up] for
    units marked [noTransaction] is never taken. *)
Lemma applyMigration_run migration w :
  applyMigration E migration w =
    match Asset E migration with
    | inr err => (Some (Returned (Some err)), w, [])
    | inl body =>
        let r := runTransaction E (strings.Split body ";"%char) w in
        (match result r with
         | Some e => Some (Returned (Some e))
         | None => None
         end, world r, events r)
    end.
Proof.
  unfold applyMigration, ParseFile.
  destruct (Asset E migration) as [body|err]; [|reflexivity].
  destruct (strings.Split body ";"%char) as [|first others] eqn:Hs.
  { now rewrite SplitFacts.Split_cons in Hs. }
  rewrite (SplitFacts.first_piece_unmarked _ _ _ Hs).
  rewrite bind_run.
  destruct (runTransaction E (first :: others) w) as [[[e|] w1] t1];
    unfold result, world, events, ret; simpl; now rewrite app_nil_r.
Qed.

Lemma applyMigrations_applied files : forall w,
  Applied E files w (applyMigrations E files w).
Proof.
  induction files as [|migration rest IH]; intros w; [constructor|].
  cbn [applyMigrations]. rewrite bind_run, applyMigration_run.
  destruct (Asset E migration) as [body|err] eqn:Ha.
  2:{ unfold result, world, events, ret; simpl. now constructor. }
  pose proof (runTransaction_end E (strings.Split body ";"%char) w) as Ht.
  destruct (runTransaction E (strings.Split body ";"%char) w)
    as [[[e|] w1] t1]; unfold result, world, events, ret in *; simpl in *.
  - rewrite app_nil_r. econstructor; eassumption.
  - specialize (IH w1).
    destruct (applyMigrations E rest w1) as [[outcome w2] t2].
    simpl. econstructor; eassumption.
Qed.

(** *** What follows for every run of the loop *)

Lemma Applied_returns files w r :
  Applied E files w r -> exists err, fst (fst r) = Returned err.
Proof. induction 1; simpl; eauto. Qed.

(** A failed [Exec], [Begin] or [tx.Exec] ends the loop with its error. *)
Lemma TxEnd_reported statements w r c e :
  TxEnd E statements w r ->
  In (c, Some e) (events r) -> isReported c = true ->
  result r = Some e.
Proof.
  unfold succeeded.
  destruct 1; unfold events, result; simpl; intros Hin Hc.
  - destruct Hin as [[= <- <-]|[]]. reflexivity.
  - destruct Hin as [[=]|Hin]. apply in_app_or in Hin.
    destruct Hin as [Hin|[[= <- <-]|[[= <- <-]|[]]]];
      [|reflexivity|discriminate].
    apply in_map_iff in Hin. now destruct Hin as (q & [=] & _).
  - destruct Hin as [[=]|Hin]. apply in_app_or in Hin.
    destruct Hin as [Hin|[[= <- <-]|[[=]|[]]]]; [|discriminate].
    apply in_map_iff in Hin. now destruct Hin as (q & [=] & _).
  - destruct Hin as [[=]|Hin]. apply in_app_or in Hin.
    destruct Hin as [Hin|[[=]|[]]].
    apply in_map_iff in Hin. now destruct Hin as (q & [=] & _).
Qed.

Lemma Applied_reported files w r c e :
  Applied E files w r ->
  In (c, Some e) (events r) -> isReported c = true ->
  result r = Returned (Some e).
Proof.
  induction 1 as [w|f rest err w Ha|f rest body e0 w w1 t Ha Ht
                 |f rest body w w1 t o w2 t2 Ha Ht Hrest IH];
    unfold events, result in *; simpl in *; intros Hin Hc.
  - contradiction.
  - contradiction.
  - pose proof (TxEnd_reported _ _ _ _ _ Ht Hin Hc) as H.
    unfold result in H; simpl in H. congruence.
  - apply in_app_or in Hin. destruct Hin as [Hin|Hin]; [|now apply IH].
    pose proof (TxEnd_reported _ _ _ _ _ Ht Hin Hc) as H. discriminate.
Qed.

End Loop.

(** ** Traces of the loop *)

Section LoopTraces.

Context {Schema : Type} (E : Env Schema).

Lemma txQueries_app t1 t2 : txQueries (t1 ++ t2) = txQueries t1 ++ txQueries t2.
Proof.
  induction t1 as [|[c e] t1 IH]; [reflexivity|].
  destruct c; simpl; now rewrite ?IH.
Qed.

Lemma txQueries_succeeded statements :
  txQueries (succeeded statements) = statements.
Proof. induction statements; simpl; now f_equal. Qed.

Lemma databaseCalls_app t1 t2 :
  databaseCalls (t1 ++ t2) = databaseCalls t1 ++ databaseCalls t2.
Proof. unfold databaseCalls, calls. now rewrite map_app, filter_app. Qed.

Lemma databaseCalls_succeeded statements :
  databaseCalls (succeeded statements) = map TxExec statements.
Proof.
  unfold databaseCalls, calls, succeeded.
  induction statements; simpl; now f_equal.
Qed.

Lemma statementsOf_loaded migration body :
  Asset E migration = inl body ->
  statementsOf E migration = strings.Split body ";"%char.
Proof. unfold statementsOf, ParseFile. now intros ->. Qed.

(** A transaction that returns [nil] sent every statement, between its
    [Begin] and its [Commit]. *)
Lemma TxEnd_nil_calls statements w w1 t :
  TxEnd E statements w (None, w1, t) ->
  databaseCalls t = DBBegin :: map TxExec statements ++ [TxCommit]
  /\ txQueries t = statements.
Proof.
  assert (Hc : forall tail,
    databaseCalls ((DBBegin, None) :: succeeded statements ++ tail)
    = DBBegin :: map TxExec statements ++ databaseCalls tail).
  { intros tail.
    change ((DBBegin, None) :: succeeded statements ++ tail)
      with ([(DBBegin, @None error)] ++ succeeded statements ++ tail).
    now rewrite !databaseCalls_app, databaseCalls_succeeded. }
  assert (Hq : forall tail,
    txQueries ((DBBegin, None) :: succeeded statements ++ tail)
    = statements ++ txQueries tail).
  { intros tail. simpl. now rewrite txQueries_app, txQueries_succeeded. }
  inversion 1; subst; rewrite Hc, Hq; simpl; now rewrite app_nil_r.
Qed.

(** What a transaction sent through [tx.Exec] is an initial part of its
    statements. *)
Lemma TxEnd_prefix statements w r :
  TxEnd E statements w r ->
  exists rest, txQueries (events r) ++ rest = statements.
Proof.
  destruct 1; unfold events; simpl.
  - now exists statements.
  - exists rest. rewrite txQueries_app, txQueries_succeeded. simpl.
    subst. now rewrite <- app_assoc.
  - exists []. rewrite txQueries_app, txQueries_succeeded. simpl.
    now rewrite !app_nil_r.
  - exists []. rewrite txQueries_app, txQueries_succeeded. simpl.
    now rewrite !app_nil_r.
Qed.

Lemma Applied_nil_calls files w r :
  Applied E files w r -> result r = Returned None ->
  databaseCalls (events r) = flat_map (unitCalls E) files
  /\ txQueries (events r) = allStatements E files.
Proof.
  induction 1 as [w|f rest err w Ha|f rest body e0 w w1 t Ha Ht
                 |f rest body w w1 t o w2 t2 Ha Ht Hrest IH];
    unfold events, result in *; simpl in *; intros Hr;
    try discriminate; [now split|].
  destruct (IH Hr) as [IHc IHq].
  destruct (TxEnd_nil_calls _ _ _ _ Ht) as [Hc Hq].
  rewrite databaseCalls_app, txQueries_app, IHc, IHq, Hc, Hq.
  unfold unitCalls, allStatements. rewrite (statementsOf_loaded _ _ Ha).
  now split.
Qed.

Lemma Applied_prefix files w r :
  Applied E files w r ->
  exists rest, txQueries (events r) ++ rest = allStatements E files.
Proof.
  induction 1 as [w|f rest err w Ha|f rest body e0 w w1 t Ha Ht
                 |f rest body w w1 t o w2 t2 Ha Ht Hrest IH];
    unfold events in *; simpl in *.
  - now exists [].
  - eexists. reflexivity.
  - destruct (TxEnd_prefix _ _ _ Ht) as [more Hm].
    unfold events in Hm; simpl in Hm.
    exists (more ++ allStatements E rest).
    rewrite (statementsOf_loaded _ _ Ha), <- Hm. now rewrite app_assoc.
  - destruct IH as [more Hm].
    destruct (TxEnd_nil_calls _ _ _ _ Ht) as [_ Hq].
    exists more. rewrite txQueries_app, Hq, (statementsOf_loaded _ _ Ha).
    now rewrite <- app_assoc, Hm.
Qed.

(** When the loop returns [nil], every asset was loaded. *)
Lemma Applied_nil_assets files w r :
  Applied E files w r -> result r = Returned None ->
  Forall (fun f => exists body, Asset E f = inl body) files.
Proof.
  induction 1; unfold result in *; simpl in *; intros Hr;
    try discriminate; constructor; eauto.
Qed.

Lemma TxEnd_no_lock statements w r :
  TxEnd E statements w r ->
  Forall (fun c => isLockCall c = false) (calls (events r)).
Proof.
  assert (Hs : forall l, Forall (fun c => isLockCall c = false)
                           (calls (succeeded l))).
  { induction l; simpl; now constructor. }
  destruct 1; unfold events, calls in *; simpl;
    rewrite ?map_app; repeat constructor;
    apply Forall_app; split; auto; now repeat constructor.
Qed.

Lemma Applied_no_lock files w r :
  Applied E files w r ->
  Forall (fun c => isLockCall c = false) (calls (events r)).
Proof.
  induction 1 as [w|f rest err w Ha|f rest body e0 w w1 t Ha Ht
                 |f rest body w w1 t o w2 t2 Ha Ht Hrest IH];
    unfold events, calls in *; simpl in *; try now constructor.
  - exact (TxEnd_no_lock _ _ _ Ht).
  - rewrite map_app. apply Forall_app. split; [|exact IH].
    exact (TxEnd_no_lock _ _ _ Ht).
Qed.

Lemma stopsAtFailure_quiet t1 t2 :
  quiet t1 -> stopsAtFailure (t1 ++ t2) = stopsAtFailure t2.
Proof.
  induction t1 as [|[c [e|]] t1 IH]; intros Hq; [reflexivity| |].
  - simpl. rewrite (Hq c e (or_introl eq_refl)).
    apply IH. intros c' e' Hin. apply (Hq c' e'). now right.
  - simpl. apply IH. intros c' e' Hin. apply (Hq c' e'). now right.
Qed.

Lemma quiet_succeeded statements : quiet (succeeded statements).
Proof.
  intros c e Hin. apply in_map_iff in Hin. now destruct Hin as (q & [=] & _).
Qed.

Lemma quiet_app t1 t2 : quiet t1 -> quiet t2 -> quiet (t1 ++ t2).
Proof.
  intros H1 H2 c e Hin. apply in_app_or in Hin. destruct Hin; eauto.
Qed.

Lemma quiet_cons c r t :
  (isReported c = false \/ r = None) -> quiet t -> quiet ((c, r) :: t).
Proof.
  intros Hc Ht c' e' [[= <- ->]|Hin]; [|eauto].
  now destruct Hc.
Qed.

Lemma TxEnd_nil_quiet statements w w1 t :
  TxEnd E statements w (None, w1, t) -> quiet t.
Proof.
  inversion 1; subst; apply quiet_cons; auto; apply quiet_app;
    try apply quiet_succeeded; repeat (apply quiet_cons; auto);
    intros c e [].
Qed.

Lemma TxEnd_stops statements w r :
  TxEnd E statements w r -> stopsAtFailure (events r) = true.
Proof.
  intros Ht. destruct r as [[[e|] w1] t]; rewrite events_mk.
  - inversion Ht; subst; [reflexivity|]. cbn [stopsAtFailure].
    rewrite stopsAtFailure_quiet by apply quiet_succeeded. reflexivity.
  - rewrite <- (app_nil_r t).
    now rewrite (stopsAtFailure_quiet t [] (TxEnd_nil_quiet _ _ _ _ Ht)).
Qed.

Lemma Applied_stops files w r :
  Applied E files w r -> stopsAtFailure (events r) = true.
Proof.
  induction 1 as [w|f rest err w Ha|f rest body e0 w w1 t Ha Ht
                 |f rest body w w1 t o w2 t2 Ha Ht Hrest IH];
    rewrite events_mk in *; try reflexivity.
  - apply (TxEnd_stops _ _ _ Ht).
  - now rewrite (stopsAtFailure_quiet t t2 (TxEnd_nil_quiet _ _ _ _ Ht)).
Qed.

End LoopTraces.

(** ** The whole of [Up] *)

Section UpRuns.

Context {Schema : Type} (E : Env Schema).

Lemma run_create d : run E createTableStmt d = inl (ensured d).
Proof. unfold run. now rewrite String.eqb_refl. Qed.

Lemma run_drop d : run E dropLegacyStmt d = inl (setVersionTable None d).
Proof.
  unfold run.
  replace (String.eqb dropLegacyStmt createTableStmt) with false by reflexivity.
  now rewrite String.eqb_refl.
Qed.

Lemma ensured_exists (d : Database Schema) :
  exists rows, migration_version (ensured d) = Some rows.
Proof. unfold ensured. destruct (migration_version d) eqn:H; simpl; eauto. Qed.

(** What the calls [Up] makes before its loop return and leave. *)
Lemma Exec_create w :
  let r := Exec E createTableStmt w in
  events r = [(DBExec createTableStmt, result r)]
  /\ data (world r)
     = match result r with Some _ => data w | None => ensured (data w) end.
Proof.
  unfold Exec. pose proof (popFault_data w) as H.
  destruct (popFault w) as [[e|] w1]; rewrite ?run_create;
    unfold result, world, events; simpl in *; split; congruence.
Qed.

Lemma Exec_drop w :
  let r := Exec E dropLegacyStmt w in
  events r = [(DBExec dropLegacyStmt, result r)]
  /\ data (world r)
     = match result r with
       | Some _ => data w
       | None => setVersionTable None (data w)
       end.
Proof.
  unfold Exec. pose proof (popFault_data w) as H.
  destruct (popFault w) as [[e|] w1]; rewrite ?run_drop;
    unfold result, world, events; simpl in *; split; congruence.
Qed.

Lemma QueryRowScan_run {A} query (row : Database Schema -> A + error) w :
  let r := QueryRowScan query row w in
  data (world r) = data w
  /\ match result r with
     | inl a => row (data w) = inl a /\ events r = [(DBQueryRow query, None)]
     | inr e => events r = [(DBQueryRow query, Some e)]
     end.
Proof.
  unfold QueryRowScan. pose proof (popFault_data w) as H.
  destruct (popFault w) as [[e|] w1]; unfold result, world, events;
    simpl in *; [now split|].
  rewrite <- H. destruct (row (data w1)); simpl; now split.
Qed.

Lemma existLegacyVersion_run (w : World Schema) :
  let r := existLegacyVersion w in
  data (world r) = data w
  /\ (exists f1, events r = [(DBQueryRow legacyExistsQuery, f1)])
  /\ (result r = false ->
      migration_version (data w) = None
      /\ events r = [(DBQueryRow legacyExistsQuery, None)]).
Proof.
  unfold existLegacyVersion. rewrite bind_run.
  pose proof (QueryRowScan_run legacyExistsQuery tableExists w) as H.
  destruct (QueryRowScan legacyExistsQuery tableExists w) as [[[b|e] w1] t1];
    unfold result, world, events, ret in *; simpl in *.
  - destruct H as (Hd & Hrow & ->).
    split; [exact Hd|]. split; [now eexists|].
    intros ->. unfold tableExists in Hrow.
    now destruct (migration_version (data w)).
  - destruct H as (Hd & ->).
    split; [exact Hd|]. split; [now eexists|]. discriminate.
Qed.

Lemma checkLegacyVersion_end w : LegacyEnd w (checkLegacyVersion E w).
Proof.
  unfold checkLegacyVersion. rewrite bind_run.
  destruct (existLegacyVersion_run w) as (Hd & [f1 Hev] & Hno).
  destruct (existLegacyVersion w) as [[exists_ w1] t1];
    unfold result, world, events in *; simpl in *; subst t1.
  destruct exists_; simpl.
  2:{ destruct (Hno eq_refl) as [Hnone [= ->]]. unfold ret; simpl.
      now constructor. }
  rewrite bind_run.
  pose proof (QueryRowScan_run legacyVersionQuery firstVersion w1) as H.
  destruct (QueryRowScan legacyVersionQuery firstVersion w1)
    as [[[dbVersion|e2] w2] t2];
    unfold result, world, events, ret in *; simpl in *.
  2:{ destruct H as (Hd2 & ->). constructor. congruence. }
  destruct H as (Hd2 & Hrow & ->). rewrite Hd in Hrow.
  destruct (Z.eqb_spec dbVersion oldMigrationLastVersion) as [->|Hne]; simpl.
  2:{ constructor; congruence. }
  rewrite bind_run. destruct (Exec_drop w2) as [Hev Hdd].
  destruct (Exec E dropLegacyStmt w2) as [[[e|] w3] t3];
    unfold result, world, events, ret in *; simpl in *; subst t3.
  - constructor; congruence.
  - constructor; congruence.
Qed.

Lemma setVersionTable_ensured t (d : Database Schema) :
  setVersionTable t (ensured d) = setVersionTable t d.
Proof. unfold ensured. now destruct (migration_version d). Qed.

Lemma Up_end {LockFactory Strategy} (self : migrator LockFactory Strategy) w :
  UpEnd E (migrationFiles self) w (Up E self w).
Proof.
  unfold Up, checkOrCreateSchemaMigrationsTable.
  destruct (Exec_create w) as [Hev Hd].
  destruct (Exec E createTableStmt w) as [[[e|] w1] t1] eqn:Hx;
    rewrite (bind_eq _ _ _ _ _ _ Hx);
    unfold result, world, events in Hev, Hd; simpl in Hev, Hd; subst t1.
  { unfold result, world, events, ret; simpl. now constructor. }
  pose proof (checkLegacyVersion_end w1) as HL.
  pose proof (applyMigrations_applied E (migrationFiles self)) as HA.
  destruct (checkLegacyVersion E w1) as [[[v err] w2] t2] eqn:Hy.
  rewrite (bind_eq _ _ _ _ _ _ Hy), result_mk, world_mk, events_mk.
  inversion HL; subst; rewrite ?Hd in *.
  - destruct (ensured_exists (data w)) as [rows Hrows]. congruence.
  - apply (VersionUnread E _ w f1 e2 w2 _); [congruence|apply HA|reflexivity].
  - unfold result, world, events, ret; simpl.
    apply LegacyUnsupported; congruence.
  - unfold result, world, events, ret; simpl.
    apply DropFailed; congruence.
  - apply (LegacyDropped E _ w f1 w2 _); [|assumption|apply HA|reflexivity].
    match goal with H : data w2 = _ |- _ => rewrite H end.
    apply setVersionTable_ensured.
Qed.

End UpRuns.

(** ** What [Up] can do to the database

    [Up] changes the database through the statements it executes only:
    the two it sends about its table, and the statements of the units.  A
    relation between databases that is reflexive and transitive, that
    creating and dropping the table respect and that every statement of
    the units respects, relates the database before [Up] to the database
    after it. *)

Section Preservation.

Context {Schema : Type} (E : Env Schema).
Variable R : Database Schema -> Database Schema -> Prop.
Variable respected : string -> Prop.
Hypothesis R_refl : forall d, R d d.
Hypothesis R_trans : forall d1 d2 d3, R d1 d2 -> R d2 d3 -> R d1 d3.
Hypothesis R_ensured : forall d, R d (ensured d).
Hypothesis R_dropped : forall d, R d (setVersionTable None d).
Hypothesis R_run :
  forall query, respected query ->
  forall d d', run E query d = inl d' -> R d d'.

Lemma txStatements_working statements :
  Forall respected statements ->
  forall tx w,
    R (working tx) (working (fst (result (txStatements E tx statements w)))).
Proof.
  induction 1 as [|q rest Hq Hrest IH]; intros tx w; [apply R_refl|].
  cbn [txStatements].
  assert (H : R (working tx) (working (fst (result (Tx_Exec E tx q w))))).
  { unfold Tx_Exec. destruct (popFault w) as [[e|] w1]; [apply R_refl|].
    destruct (run E q (working tx)) as [d|e] eqn:Hrun; [|apply R_refl].
    apply (R_run _ Hq _ _ Hrun). }
  destruct (Tx_Exec E tx q w) as [[[tx1 [e|]] w1] t1] eqn:Hx;
    rewrite (bind_eq _ _ _ _ _ _ Hx), result_mk in *; simpl in H.
  - exact H.
  - eapply R_trans; [exact H|]. apply IH.
Qed.

Lemma TxEnd_preserves statements w r :
  Forall respected statements ->
  TxEnd E statements w r -> R (data w) (data (world r)).
Proof.
  intros Hall.
  destruct 1 as [e w1 Hd|done q rest e f w1 Hs Hd|ce w1 Hd|tx w0 w1 Hd Hw];
    rewrite world_mk, Hd; try apply R_refl.
  rewrite <- Hw. now apply txStatements_working.
Qed.

Lemma Applied_preserves files w r :
  Applied E files w r ->
  Forall respected (allStatements E files) ->
  R (data w) (data (world r)).
Proof.
  induction 1 as [w|f rest err w Ha|f rest body e0 w w1 t Ha Ht
                 |f rest body w w1 t o w2 t2 Ha Ht Hrest IH];
    rewrite world_mk in *; try (intros _; apply R_refl);
    unfold allStatements; cbn [flat_map];
    rewrite (statementsOf_loaded E _ _ Ha), Forall_app; intros [Hf Hall].
  - apply (TxEnd_preserves _ _ _ Hf Ht).
  - eapply R_trans; [apply (TxEnd_preserves _ _ _ Hf Ht)|exact (IH Hall)].
Qed.

Lemma Up_preserves {LockFactory Strategy}
    (self : migrator LockFactory Strategy) w :
  Forall respected (allStatements E (migrationFiles self)) ->
  R (data w) (data (world (Up E self w))).
Proof.
  intros Hall.
  destruct (Up_end E self w) as [e w1 Hd|f1 v w1 Hd Hv Hne|f1 e w1 Hd Hv
                                |f1 e2 w1 r Hd Ha|f1 w1 r Hd Hv Ha];
    rewrite world_mk; rewrite <- ?Hd in *; try apply R_refl;
    try (rewrite Hd; apply R_ensured).
  - eapply R_trans; [|apply (Applied_preserves _ _ _ Ha Hall)].
    rewrite Hd. apply R_ensured.
  - eapply R_trans; [|apply (Applied_preserves _ _ _ Ha Hall)].
    rewrite Hd. apply R_dropped.
Qed.

End Preservation.

(** ** Corollaries for every run of [Up] *)

Section UpFacts.

Context {Schema LockFactory Strategy : Type} (E : Env Schema).
Implicit Types (self : migrator LockFactory Strategy) (w : World Schema).

Lemma Up_returns self w : exists err, result (Up E self w) = Returned err.
Proof.
  destruct (Up_end E self w); rewrite result_mk; eauto;
    eapply Applied_returns; eassumption.
Qed.

Lemma Up_reported self w c e :
  In (c, Some e) (events (Up E self w)) -> isReported c = true ->
  result (Up E self w) = Returned (Some e).
Proof.
  destruct (Up_end E self w) as [e0 w1 Hd|f1 v w1 Hd Hv Hne|f1 e0 w1 Hd Hv
                                |f1 e2 w1 r Hd Ha|f1 w1 r Hd Hv Ha];
    rewrite result_mk, events_mk; simpl; intros Hin Hc.
  - destruct Hin as [[= <- <-]|[]]. reflexivity.
  - destruct Hin as [[=]|[[= <- <-]|[[=]|[]]]]. discriminate.
  - destruct Hin as [[=]|[[= <- <-]|[[=]|[[= <- <-]|[]]]]];
      [discriminate|reflexivity].
  - destruct Hin as [[=]|[[= <- <-]|[[= <- <-]|Hin]]]; try discriminate.
    apply (Applied_reported E _ _ _ _ _ Ha Hin Hc).
  - destruct Hin as [[=]|[[= <- <-]|[[=]|[[=]|Hin]]]]; try discriminate.
    apply (Applied_reported E _ _ _ _ _ Ha Hin Hc).
Qed.

Lemma Up_nil_calls self w :
  result (Up E self w) = Returned None ->
  (exists dropped,
     databaseCalls (events (Up E self w))
     = preambleCalls dropped ++ flat_map (unitCalls E) (migrationFiles self))
  /\ txQueries (events (Up E self w)) = allStatements E (migrationFiles self).
Proof.
  destruct (Up_end E self w) as [e0 w1 Hd|f1 v w1 Hd Hv Hne|f1 e0 w1 Hd Hv
                                |f1 e2 w1 r Hd Ha|f1 w1 r Hd Hv Ha];
    rewrite result_mk, events_mk; intros Hr; try discriminate;
    destruct (Applied_nil_calls E _ _ _ Ha Hr) as [Hc Hq];
    rewrite databaseCalls_app, txQueries_app, Hc, Hq; split; try reflexivity.
  - now exists false.
  - now exists true.
Qed.

Lemma Up_stops self w : stopsAtFailure (events (Up E self w)) = true.
Proof.
  destruct (Up_end E self w) as [e0 w1 Hd|f1 v w1 Hd Hv Hne|f1 e0 w1 Hd Hv
                                |f1 e2 w1 r Hd Ha|f1 w1 r Hd Hv Ha];
    rewrite events_mk.
  - reflexivity.
  - now destruct f1.
  - now destruct f1.
  - destruct f1; simpl; apply (Applied_stops E _ _ _ Ha).
  - destruct f1; simpl; apply (Applied_stops E _ _ _ Ha).
Qed.

Lemma Up_prefix self w :
  exists rest,
    txQueries (events (Up E self w)) ++ rest
    = allStatements E (migrationFiles self).
Proof.
  destruct (Up_end E self w) as [e0 w1 Hd|f1 v w1 Hd Hv Hne|f1 e0 w1 Hd Hv
                                |f1 e2 w1 r Hd Ha|f1 w1 r Hd Hv Ha];
    rewrite events_mk; simpl; eauto; apply (Applied_prefix E _ _ _ Ha).
Qed.

End UpFacts.

(** ** The Version Store under [Up] *)

Section VersionStore.

Context {Schema LockFactory Strategy : Type} (E : Env Schema).

Lemma noNewRows_refl (d : Database Schema) : noNewRows d d.
Proof. now left. Qed.

Lemma noNewRows_trans (d1 d2 d3 : Database Schema) :
  noNewRows d1 d2 -> noNewRows d2 d3 -> noNewRows d1 d3.
Proof. unfold noNewRows. intros [H|H] [H'|H']; rewrite ?H', ?H; auto. Qed.

Lemma run_noNewRows query :
  (forall d d',
     sql E query d = inl d' -> migration_version d' = migration_version d) ->
  forall d d', run E query d = inl d' -> noNewRows d d'.
Proof.
  intros HE d d'. unfold run, noNewRows, versionRows.
  destruct (String.eqb query createTableStmt).
  { intros [= <-]. unfold ensured.
    destruct (migration_version d) eqn:Hm; simpl; rewrite ?Hm; auto. }
  destruct (String.eqb query dropLegacyStmt).
  { intros [= <-]. simpl. auto. }
  intros H. rewrite (HE _ _ H). auto.
Qed.

Lemma ensured_noNewRows (d : Database Schema) : noNewRows d (ensured d).
Proof.
  unfold noNewRows, versionRows, ensured.
  destruct (migration_version d) eqn:Hm; simpl; rewrite ?Hm; auto.
Qed.

Lemma Up_noNewRows (self : migrator LockFactory Strategy) w :
  (forall query,
     In query (allStatements E (migrationFiles self)) ->
     forall d d',
       sql E query d = inl d' -> migration_version d' = migration_version d) ->
  noNewRows (data w) (data (world (Up E self w))).
Proof.
  intros HE.
  apply (Up_preserves E noNewRows
           (fun query =>
              forall d d',
                sql E query d = inl d'
                -> migration_version d' = migration_version d)).
  - apply noNewRows_refl.
  - apply noNewRows_trans.
  - apply ensured_noNewRows.
  - intros d. now right.
  - apply run_noNewRows.
  - apply Forall_forall. exact HE.
Qed.

End VersionStore.

(** The server of the demonstration leaves [migration_version] as it is,
    whatever it executes. *)
Lemma Demo_execute_keeps_versions query (d d' : Database Demo.Schema) :
  Demo.execute query d = inl d' -> migration_version d' = migration_version d.
Proof.
  unfold Demo.execute.
  destruct (String.eqb query ""); [now intros [= <-]|].
  destruct (String.prefix "CREATE TABLE " query); [|discriminate].
  destruct (existsb _ _); [discriminate|]. now intros [= <-].
Defined.

(** ** A connection without faults *)

Section Quiet.

Context {Schema : Type} (E : Env Schema).

Lemma Exec_quiet query (d : Database Schema) :
  Exec E query (mkWorld d [])
  = match run E query d with
    | inl d' => (None, mkWorld d' [], [(DBExec query, None)])
    | inr e => (Some e, mkWorld d [], [(DBExec query, Some e)])
    end.
Proof. reflexivity. Qed.

Lemma QueryRowScan_quiet {A} query (row : Database Schema -> A + error) d :
  QueryRowScan query row (mkWorld d [])
  = match row d with
    | inl a => (inl a, mkWorld d [], [(DBQueryRow query, None)])
    | inr e => (inr e, mkWorld d [], [(DBQueryRow query, Some e)])
    end.
Proof. reflexivity. Qed.

(** [checkLegacyVersion] on a connection without faults, when the table
    is there and [v] is the version of its first row. *)
Lemma firstVersion_table (d : Database Schema) v :
  firstVersion d = inl v ->
  exists value rest,
    migration_version d = Some (value :: rest) /\ scanInt value = inl v.
Proof.
  unfold firstVersion.
  destruct (migration_version d) as [[|value rest]|]; try discriminate.
  intros H. now exists value, rest.
Qed.

Lemma checkLegacyVersion_quiet (d : Database Schema) v :
  firstVersion d = inl v ->
  checkLegacyVersion E (mkWorld d [])
  = if Z.eqb v oldMigrationLastVersion then
      (newMigrationStartVersion, None, mkWorld (setVersionTable None d) [],
       [(DBQueryRow legacyExistsQuery, None);
        (DBQueryRow legacyVersionQuery, None);
        (DBExec dropLegacyStmt, None)])
    else
      ((-1)%Z, Some (upgradeError v), mkWorld d [],
       [(DBQueryRow legacyExistsQuery, None);
        (DBQueryRow legacyVersionQuery, None)]).
Proof.
  intros Hv. destruct (firstVersion_table d v Hv) as (value & rest & Hmv & _).
  assert (H0 : QueryRowScan legacyExistsQuery tableExists (mkWorld d [])
               = (inl true, mkWorld d [],
                  [(DBQueryRow legacyExistsQuery, None)])).
  { rewrite QueryRowScan_quiet. unfold tableExists. now rewrite Hmv. }
  assert (H1 : existLegacyVersion (mkWorld d [])
               = (true, mkWorld d [], [(DBQueryRow legacyExistsQuery, None)])).
  { unfold existLegacyVersion. now rewrite (bind_eq _ _ _ _ _ _ H0). }
  assert (H2 : QueryRowScan legacyVersionQuery firstVersion (mkWorld d [])
               = (inl v, mkWorld d [],
                  [(DBQueryRow legacyVersionQuery, None)])).
  { rewrite QueryRowScan_quiet. now rewrite Hv. }
  assert (H3 : Exec E dropLegacyStmt (mkWorld d [])
               = (None, mkWorld (setVersionTable None d) [],
                  [(DBExec dropLegacyStmt, None)])).
  { now rewrite Exec_quiet, run_drop. }
  unfold checkLegacyVersion.
  rewrite (bind_eq _ _ _ _ _ _ H1). cbn [negb].
  rewrite (bind_eq _ _ _ _ _ _ H2).
  destruct (Z.eqb v oldMigrationLastVersion); cbn [negb].
  - now rewrite (bind_eq _ _ _ _ _ _ H3).
  - reflexivity.
Qed.

Lemma Exec_create_quiet (d : Database Schema) rows :
  migration_version d = Some rows ->
  Exec E createTableStmt (mkWorld d [])
  = (None, mkWorld d [], [(DBExec createTableStmt, None)]).
Proof.
  intros Hmv. rewrite Exec_quiet, run_create. unfold ensured.
  now rewrite Hmv.
Qed.

End Quiet.

Lemma Up_nil_assets {Schema LockFactory Strategy : Type} (E : Env Schema)
    (self : migrator LockFactory Strategy) w :
  result (Up E self w) = Returned None ->
  Forall (fun f => exists body, Asset E f = inl body) (migrationFiles self).
Proof.
  destruct (Up_end E self w) as [e0 w1 Hd|f1 v w1 Hd Hv Hne|f1 e0 w1 Hd Hv
                                |f1 e2 w1 r Hd Ha|f1 w1 r Hd Hv Ha];
    rewrite result_mk; intros Hr; try discriminate;
    apply (Applied_nil_assets E _ _ _ Ha Hr).
Qed.

(** ** Where the error of [Up] comes from *)

Section Provenance.

Context {Schema : Type} (E : Env Schema).

Lemma TxEnd_error_source statements w r e :
  TxEnd E statements w r -> result r = Some e ->
  exists c, isReported c = true /\ In (c, Some e) (events r).
Proof.
  destruct 1 as [e0 w1 Hd|done q rest e0 f w1 Hs Hd|ce w1 Hd|tx w0 w1 Hd Hw];
    rewrite result_mk, events_mk; intros [= <-].
  - exists DBBegin. split; [reflexivity|]. now left.
  - exists (TxExec q). split; [reflexivity|].
    right. apply in_or_app. right. now left.
Qed.

Lemma Applied_error_source files w r e :
  Applied E files w r -> result r = Returned (Some e) ->
  (exists c, isReported c = true /\ In (c, Some e) (events r))
  \/ (exists migration, In migration files /\ Asset E migration = inr e).
Proof.
  induction 1 as [w|f rest err w Ha|f rest body e0 w w1 t Ha Ht
                 |f rest body w w1 t o w2 t2 Ha Ht Hrest IH];
    rewrite result_mk, events_mk in *; intros Hr.
  - discriminate.
  - injection Hr as ->. right. exists f. split; [now left|assumption].
  - injection Hr as ->. left.
    apply (TxEnd_error_source _ _ _ _ Ht eq_refl).
  - destruct (IH Hr) as [(c & Hc & Hin)|(m & Hm & Hasset)].
    + left. exists c. split; [assumption|]. apply in_or_app. now right.
    + right. exists m. split; [now right|assumption].
Qed.

(** The first unit whose asset does not load ends the loop with the
    error of [Asset], unless a call failed before the loop came to it. *)
Lemma Applied_first_missing files w r :
  Applied E files w r ->
  forall before f after err,
    files = before ++ f :: after ->
    Forall (fun f => exists body, Asset E f = inl body) before ->
    Asset E f = inr err ->
    result r = Returned (Some err)
    \/ exists c e,
         isReported c = true /\ In (c, Some e) (events r)
         /\ result r = Returned (Some e).
Proof.
  induction 1 as [w|m rest err0 w Ha|m rest body e0 w w1 t Ha Ht
                 |m rest body w w1 t o w2 t2 Ha Ht Hrest IH];
    intros before f after err Hfiles Hloads Hf;
    rewrite result_mk, events_mk in *.
  - destruct before; discriminate.
  - destruct before as [|b before]; injection Hfiles as -> Htail.
    + left. congruence.
    + inversion Hloads as [|? ? [body Hb] _]; subst. congruence.
  - destruct before as [|b before]; injection Hfiles as -> Htail;
      [congruence|].
    right. destruct (TxEnd_error_source _ _ _ _ Ht eq_refl) as (c & Hc & Hin).
    now exists c, e0.
  - destruct before as [|b before]; injection Hfiles as -> Htail;
      [congruence|].
    inversion Hloads as [|? ? _ Hbefore]; subst.
    destruct (IH _ _ _ _ eq_refl Hbefore Hf) as [Hr|(c & e & Hc & Hin & Hr)];
      [now left|right].
    exists c, e. repeat split; try assumption. apply in_or_app. now right.
Qed.

(** The loop sends no query: its calls are [Begin], [tx.Exec], [Commit],
    [Rollback] and [Printf]. *)
Lemma TxEnd_no_query statements w r :
  TxEnd E statements w r ->
  Forall (fun c => isQuery c = false) (calls (events r)).
Proof.
  assert (Hs : forall l, Forall (fun c => isQuery c = false)
                           (calls (succeeded l))).
  { induction l; simpl; now constructor. }
  destruct 1; unfold events, calls in *; simpl;
    rewrite ?map_app; repeat constructor;
    apply Forall_app; split; auto; now repeat constructor.
Qed.

Lemma Applied_no_query files w r :
  Applied E files w r ->
  Forall (fun c => isQuery c = false) (calls (events r)).
Proof.
  induction 1 as [w|f rest err w Ha|f rest body e0 w w1 t Ha Ht
                 |f rest body w w1 t o w2 t2 Ha Ht Hrest IH];
    unfold events, calls in *; simpl in *; try now constructor.
  - exact (TxEnd_no_query _ _ _ Ht).
  - rewrite map_app. apply Forall_app. split; [|exact IH].
    exact (TxEnd_no_query _ _ _ Ht).
Qed.

Lemma Applied_query_free files w r query f :
  Applied E files w r -> ~ In (DBQueryRow query, f) (events r).
Proof.
  intros Ha Hin. pose proof (Applied_no_query _ _ _ Ha) as Hall.
  rewrite Forall_forall in Hall.
  specialize (Hall (DBQueryRow query)). cbn [isQuery] in Hall.
  enough (true = false) by discriminate. apply Hall.
  unfold calls. now apply (in_map fst) in Hin.
Qed.

End Provenance.

(** ** The legacy check inside [Up] *)

Section LegacyFacts.

Context {Schema LockFactory Strategy : Type} (E : Env Schema).
Implicit Types (self : migrator LockFactory Strategy) (w : World Schema).

Lemma ensured_table (d : Database Schema) rows :
  migration_version d = Some rows -> ensured d = d.
Proof. unfold ensured. now intros ->. Qed.

(** When the version row was read, its value is what decides. *)
Lemma Up_version_read self w v :
  firstVersion (data w) = inl v ->
  In (DBQueryRow legacyVersionQuery, None) (events (Up E self w)) ->
  if Z.eqb v oldMigrationLastVersion then
    (exists f1 e,
       result (Up E self w) = Returned (Some e)
       /\ data (world (Up E self w)) = data w
       /\ events (Up E self w)
          = [(DBExec createTableStmt, None);
             (DBQueryRow legacyExistsQuery, f1);
             (DBQueryRow legacyVersionQuery, None);
             (DBExec dropLegacyStmt, Some e)])
    \/ (exists f1 w1,
          data w1 = setVersionTable None (data w)
          /\ Up E self w
             = (result (applyMigrations E (migrationFiles self) w1),
                world (applyMigrations E (migrationFiles self) w1),
                [(DBExec createTableStmt, None);
                 (DBQueryRow legacyExistsQuery, f1);
                 (DBQueryRow legacyVersionQuery, None);
                 (DBExec dropLegacyStmt, None)]
                ++ events (applyMigrations E (migrationFiles self) w1)))
  else
    result (Up E self w) = Returned (Some (upgradeError v))
    /\ data (world (Up E self w)) = data w
    /\ exists f1,
         events (Up E self w)
         = [(DBExec createTableStmt, None);
            (DBQueryRow legacyExistsQuery, f1);
            (DBQueryRow legacyVersionQuery, None)].
Proof.
  intros Hv.
  destruct (firstVersion_table _ _ Hv) as (value & rest & Hmv & _).
  pose proof (ensured_table _ _ Hmv) as He.
  destruct (Up_end E self w) as [e0 w1 Hd|f1 v' w1 Hd Hv' Hne|f1 e0 w1 Hd Hv'
                                |f1 e2 w1 r Hd Ha Hr|f1 w1 r Hd Hv' Ha Hr];
    rewrite ?result_mk, ?world_mk, ?events_mk; rewrite ?He in *; intros Hin.
  - destruct Hin as [[=]|[]].
  - assert (v' = v) as -> by congruence.
    apply Z.eqb_neq in Hne. rewrite Hne. eauto.
  - assert (v = oldMigrationLastVersion) as -> by congruence.
    rewrite Z.eqb_refl. left. exists f1, e0. auto.
  - exfalso. destruct Hin as [[=]|[[=]|[[=]|Hin]]].
    exact (Applied_query_free E _ _ _ _ _ Ha Hin).
  - assert (v = oldMigrationLastVersion) as -> by congruence.
    rewrite Z.eqb_refl. right. exists f1, w1. subst r. auto.
Qed.

(** When the version row was not read, [Up] goes on to the units on the
    database with the table ensured. *)
Lemma Up_version_unread self w e2 :
  In (DBQueryRow legacyVersionQuery, Some e2) (events (Up E self w)) ->
  exists f1 w1,
    data w1 = ensured (data w)
    /\ Up E self w
       = (result (applyMigrations E (migrationFiles self) w1),
          world (applyMigrations E (migrationFiles self) w1),
          [(DBExec createTableStmt, None);
           (DBQueryRow legacyExistsQuery, f1);
           (DBQueryRow legacyVersionQuery, Some e2)]
          ++ events (applyMigrations E (migrationFiles self) w1)).
Proof.
  destruct (Up_end E self w) as [e0 w1 Hd|f1 v' w1 Hd Hv' Hne|f1 e0 w1 Hd Hv'
                                |f1 e w1 r Hd Ha Hr|f1 w1 r Hd Hv' Ha Hr];
    rewrite ?events_mk; intros Hin.
  - destruct Hin as [[=]|[]].
  - destruct Hin as [[=]|[[=]|[[=]|[]]]].
  - destruct Hin as [[=]|[[=]|[[=]|[[=]|[]]]]].
  - destruct Hin as [[=]|[[=]|[[= ->]|Hin]]].
    + exists f1, w1. subst r. auto.
    + exfalso. exact (Applied_query_free E _ _ _ _ _ Ha Hin).
  - exfalso. destruct Hin as [[=]|[[=]|[[=]|[[=]|Hin]]]].
    exact (Applied_query_free E _ _ _ _ _ Ha Hin).
Qed.

(** A value of the table that does not convert is never compared with
    [oldMigrationLastVersion]. *)
Lemma Up_version_unconvertible self w rows e :
  migration_version (data w) = Some rows ->
  firstVersion (data w) = inr e ->
  (exists e0, events (Up E self w) = [(DBExec createTableStmt, Some e0)])
  \/ exists f1 e2 w1,
       data w1 = data w
       /\ Up E self w
          = (result (applyMigrations E (migrationFiles self) w1),
             world (applyMigrations E (migrationFiles self) w1),
             [(DBExec createTableStmt, None);
              (DBQueryRow legacyExistsQuery, f1);
              (DBQueryRow legacyVersionQuery, Some e2)]
             ++ events (applyMigrations E (migrationFiles self) w1)).
Proof.
  intros Hmv Hv. pose proof (ensured_table _ _ Hmv) as He.
  destruct (Up_end E self w) as [e0 w1 Hd|f1 v' w1 Hd Hv' Hne|f1 e0 w1 Hd Hv'
                                |f1 e2 w1 r Hd Ha Hr|f1 w1 r Hd Hv' Ha Hr];
    rewrite ?events_mk; rewrite ?He in *; try congruence.
  - left. now exists e0.
  - right. exists f1, e2, w1. subst r. auto.
Qed.

(** A failed exists query is followed by the version query. *)
Lemma Up_exists_failed self w e1 :
  In (DBQueryRow legacyExistsQuery, Some e1) (events (Up E self w)) ->
  exists f2 rest,
    events (Up E self w)
    = (DBExec createTableStmt, None)
      :: (DBQueryRow legacyExistsQuery, Some e1)
      :: (DBQueryRow legacyVersionQuery, f2) :: rest.
Proof.
  destruct (Up_end E self w) as [e0 w1 Hd|f1 v' w1 Hd Hv' Hne|f1 e0 w1 Hd Hv'
                                |f1 e w1 r Hd Ha Hr|f1 w1 r Hd Hv' Ha Hr];
    rewrite ?events_mk; intros Hin.
  - destruct Hin as [[=]|[]].
  - destruct Hin as [[=]|[[= ->]|[[=]|[]]]]. eauto.
  - destruct Hin as [[=]|[[= ->]|[[=]|[[=]|[]]]]]. eauto.
  - destruct Hin as [[=]|[[= ->]|[[=]|Hin]]]; [simpl; eauto|].
    exfalso. exact (Applied_query_free E _ _ _ _ _ Ha Hin).
  - destruct Hin as [[=]|[[= ->]|[[=]|[[=]|Hin]]]]; [simpl; eauto|].
    exfalso. exact (Applied_query_free E _ _ _ _ _ Ha Hin).
Qed.

(** The drop of the legacy table is what makes [checkLegacyVersion] return
    [newMigrationStartVersion]. *)
Lemma checkLegacyVersion_dropped w :
  In (DBExec dropLegacyStmt, None) (events (checkLegacyVersion E w)) ->
  result (checkLegacyVersion E w) = (newMigrationStartVersion, None)
  /\ data (world (checkLegacyVersion E w)) = setVersionTable None (data w).
Proof.
  destruct (checkLegacyVersion_end E w) as [w1 Hd Hm|f1 e2 w1 Hd|f1 v w1 Hd Hv Hne
                                           |f1 e w1 Hd Hv|f1 w1 Hd Hv];
    rewrite ?result_mk, ?world_mk, ?events_mk; intros Hin.
  - destruct Hin as [[=]|[]].
  - destruct Hin as [[=]|[[=]|[]]].
  - destruct Hin as [[=]|[[=]|[]]].
  - destruct Hin as [[=]|[[=]|[[=]|[]]]].
  - auto.
Qed.

(** A unit whose asset does not load, all units before it loading, stops
    [Up] with the error of [Asset], unless [Up] stopped before. *)
Lemma Up_first_missing self w before f after err :
  migrationFiles self = before ++ f :: after ->
  Forall (fun f => exists body, Asset E f = inl body) before ->
  Asset E f = inr err ->
  result (Up E self w) = Returned (Some err)
  \/ (exists c e,
        isReported c = true /\ In (c, Some e) (events (Up E self w))
        /\ result (Up E self w) = Returned (Some e))
  \/ (exists v,
        v <> oldMigrationLastVersion
        /\ In (DBQueryRow legacyVersionQuery, None) (events (Up E self w))
        /\ result (Up E self w) = Returned (Some (upgradeError v))).
Proof.
  intros Hfiles Hloads Hf.
  destruct (Up_end E self w) as [e0 w1 Hd|f1 v' w1 Hd Hv' Hne|f1 e0 w1 Hd Hv'
                                |f1 e2 w1 r Hd Ha Hr|f1 w1 r Hd Hv' Ha Hr];
    rewrite ?result_mk, ?events_mk.
  - right. left. exists (DBExec createTableStmt), e0. simpl. auto.
  - right. right. exists v'. simpl. repeat split; auto.
  - right. left. exists (DBExec dropLegacyStmt), e0. simpl.
    repeat split; auto 6.
  - destruct (Applied_first_missing E _ _ _ Ha _ _ _ _ Hfiles Hloads Hf)
      as [Hres|(c & e & Hc & Hin & Hres)]; [now left|right; left].
    exists c, e. repeat split; try assumption. apply in_or_app. now right.
  - destruct (Applied_first_missing E _ _ _ Ha _ _ _ _ Hfiles Hloads Hf)
      as [Hres|(c & e & Hc & Hin & Hres)]; [now left|right; left].
    exists c, e. repeat split; try assumption. apply in_or_app. now right.
Qed.

End LegacyFacts.

(** * The claims *)

(** ** Statement splitting and the marker *)

(** C10.  Splitting any text at the statement terminator, the empty text
    included, gives at least one element; [ParseFile] therefore returns an
    error or a list with a first element, and no call of [Up] ends in the
    out-of-range panic of [statements[0]]: it always returns. *)
Theorem first_statement_in_bounds :
  (forall body, 1 <= length (strings.Split body ";"%char))
  /\ strings.Split "" ";"%char = [""]
  /\ (forall Schema (E : Env Schema) name,
        match ParseFile E name with
        | inl statements => exists first others, statements = first :: others
        | inr _ => True
        end)
  /\ (forall Schema LockFactory Strategy (E : Env Schema)
             (self : migrator LockFactory Strategy) w,
        exists err, result (Up E self w) = Returned err).
Proof.
  split; [|split; [reflexivity|split]].
  - intros body. rewrite SplitFacts.Split_length. lia.
  - intros Schema E name. unfold ParseFile.
    destruct (Asset E name) as [body|err]; [|exact I].
    rewrite SplitFacts.Split_cons. eauto.
  - intros. apply Up_returns.
Qed.

(** C6.  The first element [Up] compares with [noTransaction] comes from a
    split at [;] and so holds no [;], while [noTransaction] ends in one: the
    comparison is false for every unit body, and no body takes the branch
    that executes outside a transaction.  The unit
    [NO_TRANSACTION;CREATE TABLE bar (id int)] is run in a transaction, with
    the marker sent to the server as its first statement. *)
Theorem noTransaction_never_matches :
  (forall body,
     exists first others,
       strings.Split body ";"%char = first :: others
       /\ String.eqb first noTransaction = false)
  /\ (forall Schema (E : Env Schema) migration w,
        applyMigration E migration w
        = match Asset E migration with
          | inr err => (Some (Returned (Some err)), w, [])
          | inl body =>
              let r := runTransaction E (strings.Split body ";"%char) w in
              (match result r with
               | Some e => Some (Returned (Some e))
               | None => None
               end, world r, events r)
          end)
  /\ Asset Demo.env "2_create_index.up.sql"
     = inl "NO_TRANSACTION;CREATE TABLE bar (id int)"
  /\ calls (events Demo.marked)
     = preambleCalls false ++ [DBBegin; TxExec "NO_TRANSACTION"; TxRollback]
  /\ result Demo.marked
     = Returned (Some "pq: syntax error at or near NO_TRANSACTION").
Proof.
  split; [|split; [|repeat split]].
  - intros body. rewrite SplitFacts.Split_cons. do 2 eexists.
    split; [reflexivity|].
    eapply SplitFacts.first_piece_unmarked. apply SplitFacts.Split_cons.
  - intros Schema E migration w. apply applyMigration_run.
Qed.

(** ** The Version Store *)

(** C5.  [CurrentVersion] returns the version [0] whatever the table
    holds: the rows its [SELECT] asks for are never read.  It returns no
    error on a connection without faults, whether or not the table was
    there.  On a table with the versions 1510262031 and 1510262030 it
    returns [0] and no error, where the greatest recorded version is
    1510262031. *)
Theorem CurrentVersion_is_zero :
  (forall Schema (E : Env Schema) w,
     fst (result (CurrentVersion E w)) = 0%Z)
  /\ (forall Schema (E : Env Schema) d,
        result (CurrentVersion E (mkWorld d [])) = (0%Z, None))
  /\ result (CurrentVersion Demo.env
               (Demo.tracked [1510262031; 1510262030]%Z))
     = (0%Z, None)
  /\ Spec.currentVersion 0 [1510262031; 1510262030]%Z = 1510262031%Z.
Proof.
  split; [|split; [|split; reflexivity]].
  - intros Schema E w.
    unfold CurrentVersion, checkOrCreateSchemaMigrationsTable.
    destruct (Exec E createTableStmt w) as [[[e|] w1] t1] eqn:Hx;
      rewrite (bind_eq _ _ _ _ _ _ Hx); [reflexivity|].
    rewrite result_mk.
    destruct (Exec E selectVersionsStmt w1) as [[r w2] t2] eqn:Hy.
    now rewrite (bind_eq _ _ _ _ _ _ Hy).
  - intros Schema E d.
    unfold CurrentVersion, checkOrCreateSchemaMigrationsTable.
    assert (Hx : Exec E createTableStmt (mkWorld d [])
                 = (None, mkWorld (ensured d) [],
                    [(DBExec createTableStmt, None)])).
    { unfold Exec, popFault. cbn [faults data]. now rewrite run_create. }
    rewrite (bind_eq _ _ _ _ _ _ Hx), result_mk.
    destruct (Exec E selectVersionsStmt (mkWorld (ensured d) []))
      as [[r w2] t2] eqn:Hy.
    now rewrite (bind_eq _ _ _ _ _ _ Hy).
Qed.

(** ** Transactions *)

(** C7.  When a statement of a unit run by [runTransaction] fails, the
    transaction is rolled back and [runTransaction] returns that
    statement's error; the database is afterwards what it was before the
    unit, so none of the unit's statements has left an effect and the
    Version Store has no row it did not have. *)
Theorem failed_statement_rolls_back
    {Schema : Type} (E : Env Schema) statements w query e :
  In (TxExec query, Some e) (events (runTransaction E statements w)) ->
  result (runTransaction E statements w) = Some e
  /\ data (world (runTransaction E statements w)) = data w
  /\ versionRows (data (world (runTransaction E statements w)))
     = versionRows (data w)
  /\ exists sent f,
       events (runTransaction E statements w) = sent ++ [(TxRollback, f)].
Proof.
  intros Hin.
  pose proof (runTransaction_end E statements w) as Ht.
  pose proof (TxEnd_reported E _ _ _ _ _ Ht Hin eq_refl) as Hr.
  split; [exact Hr|].
  destruct Ht as [e0 w1 Hd|done q rest e0 f w1 Hs Hd|ce w1 Hd|tx w0 w1 Hd Hw];
    rewrite ?result_mk, ?world_mk, ?events_mk in *; try discriminate.
  - destruct Hin as [[=]|[]].
  - rewrite Hd. repeat split.
    exists ((DBBegin, None) :: succeeded done ++ [(TxExec q, Some e0)]), f.
    simpl. now rewrite <- app_assoc.
Qed.

Lemma failed_statement_rolls_back_witness :
  In (TxExec "CREATE TABLE a (y int)", Some "pq: relation a already exists")
     (events (runTransaction Demo.env Demo.threeTables Demo.fresh))
  /\ result (runTransaction Demo.env Demo.threeTables Demo.fresh)
     = Some "pq: relation a already exists"
  /\ data (world (runTransaction Demo.env Demo.threeTables Demo.fresh))
     = data Demo.fresh.
Proof.
  assert (H : In (TxExec "CREATE TABLE a (y int)",
                  Some "pq: relation a already exists")
                 (events (runTransaction Demo.env Demo.threeTables Demo.fresh))).
  { vm_compute. right; right; left; reflexivity. }
  split; [exact H|].
  destruct (failed_statement_rolls_back Demo.env _ _ _ _ H) as (Hr & Hd & _).
  split; assumption.
Defined.

(** ** The legacy bridge *)

(** C8, as the code has it.  When the table is there and [Up] has read
    the value of its first row, converted to an [int] [v]: if [v] is not
    189, [Up] returns the error that names 189 and [v], having sent
    nothing but the ensure-table statement and the two legacy queries, and
    the database is unchanged; if [v] is 189, [Up] sends the drop of the
    table, returns its error with the database unchanged when it fails,
    and goes on otherwise to its loop over every unit of [migrationFiles],
    on the database without the table.  A value that does not convert is
    not compared with 189: unless ensure-table failed, [Up] goes on to the
    same loop with the table in place.  [checkLegacyVersion] returns
    1510262030 when it has dropped the table; the loop of [Up] does not
    take that value. *)
Theorem legacy_bridge
    {Schema LockFactory Strategy : Type} (E : Env Schema)
    (self : migrator LockFactory Strategy) (w : World Schema) :
  (forall v,
     firstVersion (data w) = inl v ->
     In (DBQueryRow legacyVersionQuery, None) (events (Up E self w)) ->
     if Z.eqb v 189 then
       (exists f1 e,
          result (Up E self w) = Returned (Some e)
          /\ data (world (Up E self w)) = data w
          /\ events (Up E self w)
             = [(DBExec createTableStmt, None);
                (DBQueryRow legacyExistsQuery, f1);
                (DBQueryRow legacyVersionQuery, None);
                (DBExec dropLegacyStmt, Some e)])
       \/ (exists f1 w1,
             data w1 = setVersionTable None (data w)
             /\ Up E self w
                = (result (applyMigrations E (migrationFiles self) w1),
                   world (applyMigrations E (migrationFiles self) w1),
                   [(DBExec createTableStmt, None);
                    (DBQueryRow legacyExistsQuery, f1);
                    (DBQueryRow legacyVersionQuery, None);
                    (DBExec dropLegacyStmt, None)]
                   ++ events (applyMigrations E (migrationFiles self) w1)))
     else
       result (Up E self w)
       = Returned (Some ("Must upgrade from db version 189 (concourse 3.6.0), "
                         ++ "current db version: " ++ fmt.d v)%string)
       /\ data (world (Up E self w)) = data w
       /\ exists f1,
            events (Up E self w)
            = [(DBExec createTableStmt, None);
               (DBQueryRow legacyExistsQuery, f1);
               (DBQueryRow legacyVersionQuery, None)])
  /\ (forall rows e,
        migration_version (data w) = Some rows ->
        firstVersion (data w) = inr e ->
        (exists e0, events (Up E self w) = [(DBExec createTableStmt, Some e0)])
        \/ exists f1 e2 w1,
             data w1 = data w
             /\ Up E self w
                = (result (applyMigrations E (migrationFiles self) w1),
                   world (applyMigrations E (migrationFiles self) w1),
                   [(DBExec createTableStmt, None);
                    (DBQueryRow legacyExistsQuery, f1);
                    (DBQueryRow legacyVersionQuery, Some e2)]
                   ++ events (applyMigrations E (migrationFiles self) w1)))
  /\ (In (DBExec dropLegacyStmt, None) (events (checkLegacyVersion E w)) ->
      result (checkLegacyVersion E w) = (1510262030%Z, None)
      /\ data (world (checkLegacyVersion E w))
         = setVersionTable None (data w)).
Proof.
  split; [|split].
  - intros v Hv Hin. exact (Up_version_read E self w v Hv Hin).
  - intros rows e. apply Up_version_unconvertible.
  - apply checkLegacyVersion_dropped.
Qed.

Lemma legacy_bridge_witness :
  (firstVersion (data (Demo.legacy 42)) = inl 42%Z
   /\ In (DBQueryRow legacyVersionQuery, None)
         (events (Up Demo.env Demo.fooOnly (Demo.legacy 42)))
   /\ result (Up Demo.env Demo.fooOnly (Demo.legacy 42))
      = Returned (Some ("Must upgrade from db version 189 (concourse 3.6.0), "
                        ++ "current db version: 42")%string)
   /\ data (world (Up Demo.env Demo.fooOnly (Demo.legacy 42)))
      = data (Demo.legacy 42))
  /\ (migration_version (data Demo.overflowing)
      = Some ["9223372036854775808"]
      /\ firstVersion (data Demo.overflowing)
         = inr ("sql: Scan error on column index 0: "
                ++ "converting driver.Value to a int: value out of range")%string
      /\ ((exists e0,
             events Demo.overflowed = [(DBExec createTableStmt, Some e0)])
          \/ exists f1 e2 w1,
               data w1 = data Demo.overflowing
               /\ Demo.overflowed
                  = (result (applyMigrations Demo.env
                               (migrationFiles Demo.fooOnly) w1),
                     world (applyMigrations Demo.env
                              (migrationFiles Demo.fooOnly) w1),
                     [(DBExec createTableStmt, None);
                      (DBQueryRow legacyExistsQuery, f1);
                      (DBQueryRow legacyVersionQuery, Some e2)]
                     ++ events (applyMigrations Demo.env
                                  (migrationFiles Demo.fooOnly) w1))))
  /\ (In (DBExec dropLegacyStmt, None)
         (events (checkLegacyVersion Demo.env (Demo.legacy 189)))
      /\ result (checkLegacyVersion Demo.env (Demo.legacy 189))
         = (1510262030%Z, None)).
Proof.
  split; [|split].
  - assert (Hv : firstVersion (data (Demo.legacy 42)) = inl 42%Z)
      by reflexivity.
    assert (Hin : In (DBQueryRow legacyVersionQuery, None)
                    (events (Up Demo.env Demo.fooOnly (Demo.legacy 42)))).
    { vm_compute. right; right; left; reflexivity. }
    pose proof (proj1 (legacy_bridge Demo.env Demo.fooOnly (Demo.legacy 42))
                  42%Z Hv Hin) as H.
    change (Z.eqb 42 189) with false in H. cbv iota in H.
    destruct H as (Hr & Hd & _). repeat split; assumption.
  - split; [reflexivity|]. split; [reflexivity|].
    exact (proj1 (proj2 (legacy_bridge Demo.env Demo.fooOnly
                           Demo.overflowing)) _ _ eq_refl eq_refl).
  - assert (Hin : In (DBExec dropLegacyStmt, None)
                    (events (checkLegacyVersion Demo.env (Demo.legacy 189)))).
    { vm_compute. right; right; left; reflexivity. }
    split; [exact Hin|].
    exact (proj1 (proj2 (proj2 (legacy_bridge Demo.env Demo.fooOnly
                                  (Demo.legacy 189))) Hin)).
Defined.

(** C8, as the specification has it, fails twice.  The table holds the
    single value 9223372036854775808, which is not 189: [Up] returns
    [nil], applies the unit and leaves the table as it is.  And with the
    value 189 the floor 1510262030 that [checkLegacyVersion] returns keeps
    no unit from being applied: the unit of key 1 is. *)
Lemma Up_ignores_unconverted_version :
  versionRows (data Demo.overflowing) = ["9223372036854775808"]
  /\ strconv.ParseInt "9223372036854775808" = inr "value out of range"
  /\ result Demo.overflowed = Returned None
  /\ txQueries (events Demo.overflowed) = ["CREATE TABLE foo (id int)"; ""]
  /\ versionRows (data (world Demo.overflowed)) = ["9223372036854775808"]
  /\ fst (result (checkLegacyVersion Demo.env (Demo.legacy 189)))
     = 1510262030%Z
  /\ map Spec.unitKey (migrationFiles Demo.fooOnly) = [1%Z]
  /\ result Demo.bridged = Returned None
  /\ schema (data (world Demo.bridged)) = ["foo"].
Proof. repeat split. Qed.

(** ** Errors *)

(** C9, as the code has it.  The error of every failed [Exec] on the
    connection (ensure-table, the drop of the legacy table), of every
    failed [Begin] and of every failed statement of a unit is what [Up]
    returns; after such a failure [Up] makes no call but the rollback of
    the open transaction.  A unit whose asset does not load, the units
    before it loading, makes [Up] return the error of [Asset], unless [Up]
    stopped before with the error of a failed call or with the error that
    names 189; when [Up] returns [nil] every unit's asset was loaded.  The
    two legacy queries are not among the calls whose failure is returned:
    after a failed exists query [Up] sends the version query, and after a
    failed version query [Up] is its loop over the units, on the database
    with the table ensured. *)
Theorem Up_returns_failed_calls
    {Schema LockFactory Strategy : Type} (E : Env Schema)
    (self : migrator LockFactory Strategy) (w : World Schema) :
  (forall c e,
     In (c, Some e) (events (Up E self w)) -> isReported c = true ->
     result (Up E self w) = Returned (Some e))
  /\ stopsAtFailure (events (Up E self w)) = true
  /\ (result (Up E self w) = Returned None ->
      Forall (fun f => exists body, Asset E f = inl body)
        (migrationFiles self))
  /\ (forall before f after err,
        migrationFiles self = before ++ f :: after ->
        Forall (fun f => exists body, Asset E f = inl body) before ->
        Asset E f = inr err ->
        result (Up E self w) = Returned (Some err)
        \/ (exists c e,
              isReported c = true /\ In (c, Some e) (events (Up E self w))
              /\ result (Up E self w) = Returned (Some e))
        \/ (exists v,
              v <> oldMigrationLastVersion
              /\ In (DBQueryRow legacyVersionQuery, None)
                    (events (Up E self w))
              /\ result (Up E self w) = Returned (Some (upgradeError v))))
  /\ (forall e1,
        In (DBQueryRow legacyExistsQuery, Some e1) (events (Up E self w)) ->
        exists f2 rest,
          events (Up E self w)
          = (DBExec createTableStmt, None)
            :: (DBQueryRow legacyExistsQuery, Some e1)
            :: (DBQueryRow legacyVersionQuery, f2) :: rest)
  /\ (forall e2,
        In (DBQueryRow legacyVersionQuery, Some e2) (events (Up E self w)) ->
        exists f1 w1,
          data w1 = ensured (data w)
          /\ Up E self w
             = (result (applyMigrations E (migrationFiles self) w1),
                world (applyMigrations E (migrationFiles self) w1),
                [(DBExec createTableStmt, None);
                 (DBQueryRow legacyExistsQuery, f1);
                 (DBQueryRow legacyVersionQuery, Some e2)]
                ++ events (applyMigrations E (migrationFiles self) w1))).
Proof.
  split; [|split; [|split; [|split; [|split]]]].
  - intros c e. apply Up_reported.
  - apply Up_stops.
  - apply Up_nil_assets.
  - intros before f after err. apply Up_first_missing.
  - intros e1. apply Up_exists_failed.
  - intros e2. apply Up_version_unread.
Qed.

Lemma Up_returns_failed_calls_witness :
  (In (TxExec "CREATE TABLE foo (id int)",
       Some "pq: relation foo already exists")
      (events Demo.twice)
   /\ result Demo.twice = Returned (Some "pq: relation foo already exists"))
  /\ (result Demo.once = Returned None
      /\ Forall (fun f => exists body, Asset Demo.env f = inl body)
           (migrationFiles Demo.fooOnly))
  /\ (In (DBQueryRow legacyVersionQuery, Some "driver: bad connection")
         (events Demo.unread)
      /\ exists f1 w1,
           data w1 = ensured (data (Demo.legacy 42))
           /\ Demo.unread
              = (result (applyMigrations Demo.env
                           (migrationFiles Demo.fooOnly) w1),
                 world (applyMigrations Demo.env
                          (migrationFiles Demo.fooOnly) w1),
                 [(DBExec createTableStmt, None);
                  (DBQueryRow legacyExistsQuery, f1);
                  (DBQueryRow legacyVersionQuery,
                   Some "driver: bad connection")]
                 ++ events (applyMigrations Demo.env
                              (migrationFiles Demo.fooOnly) w1)))
  /\ (Asset Demo.env "0_missing.up.sql"
      = inr "Asset 0_missing.up.sql not found"
      /\ (result (Up Demo.env (Demo.migratorOf ["0_missing.up.sql"])
                    Demo.fresh)
          = Returned (Some "Asset 0_missing.up.sql not found")
          \/ (exists c e,
                isReported c = true
                /\ In (c, Some e)
                      (events (Up Demo.env
                                 (Demo.migratorOf ["0_missing.up.sql"])
                                 Demo.fresh))
                /\ result (Up Demo.env
                             (Demo.migratorOf ["0_missing.up.sql"])
                             Demo.fresh)
                   = Returned (Some e))
          \/ (exists v,
                v <> oldMigrationLastVersion
                /\ In (DBQueryRow legacyVersionQuery, None)
                      (events (Up Demo.env
                                 (Demo.migratorOf ["0_missing.up.sql"])
                                 Demo.fresh))
                /\ result (Up Demo.env
                             (Demo.migratorOf ["0_missing.up.sql"])
                             Demo.fresh)
                   = Returned (Some (upgradeError v))))).
Proof.
  assert (H : In (TxExec "CREATE TABLE foo (id int)",
                  Some "pq: relation foo already exists") (events Demo.twice)).
  { vm_compute. do 4 right. left. reflexivity. }
  assert (Hq : In (DBQueryRow legacyVersionQuery,
                   Some "driver: bad connection") (events Demo.unread)).
  { vm_compute. do 2 right. left. reflexivity. }
  split; [split|split; [split|split; split]].
  - exact H.
  - exact (proj1 (Up_returns_failed_calls Demo.env Demo.fooOnly
                    (world Demo.once)) _ _ H eq_refl).
  - reflexivity.
  - exact (proj1 (proj2 (proj2 (Up_returns_failed_calls Demo.env Demo.fooOnly
                                  Demo.fresh))) eq_refl).
  - exact Hq.
  - destruct (Up_returns_failed_calls Demo.env Demo.fooOnly
                (Demo.withFaults [None; None; Some "driver: bad connection"]
                   (Demo.legacy 42)))
      as (_ & _ & _ & _ & _ & Hread).
    exact (Hread _ Hq).
  - reflexivity.
  - destruct (Up_returns_failed_calls Demo.env
                (Demo.migratorOf ["0_missing.up.sql"]) Demo.fresh)
      as (_ & _ & _ & Hmissing & _).
    exact (Hmissing [] "0_missing.up.sql" [] _ eq_refl (Forall_nil _) eq_refl).
Defined.

(** C9, as the specification has it, fails: on a database whose legacy
    table is at version 42, with a connection that breaks while the version
    row is read, [Up] returns [nil] and has applied the unit. *)
Lemma Up_swallows_read_failure :
  In (DBQueryRow legacyVersionQuery, Some "driver: bad connection")
     (events Demo.unread)
  /\ result Demo.unread = Returned None
  /\ txQueries (events Demo.unread) = ["CREATE TABLE foo (id int)"; ""].
Proof.
  split; [|split; reflexivity].
  vm_compute. do 2 right. left. reflexivity.
Qed.

(** A [Commit] that fails is printed and dropped: [runTransaction] returns
    [nil], [Up] returns [nil], and the table of the unit is not there. *)
Example commit_failure_is_dropped :
  let broken :=
    Demo.withFaults
      [None; None; None; None; None; None; Some "pq: could not commit"]
      Demo.fresh in
  result (Up Demo.env Demo.fooOnly broken) = Returned None
  /\ In (TxCommit, Some "pq: could not commit")
        (events (Up Demo.env Demo.fooOnly broken))
  /\ schema (data (world (Up Demo.env Demo.fooOnly broken))) = [].
Proof.
  split; [reflexivity|split; [|reflexivity]].
  vm_compute. do 6 right. left. reflexivity.
Qed.

(** ** Which units [Up] applies, and in which order *)

(** C2, as the code has it.  [Up] applies the units of [migrationFiles] in
    the order of that list, whatever their keys, the recorded versions and
    the legacy floor: the statements it sends are an initial part of the
    statements of all units, and when it returns [nil] its database calls
    are those before the loop followed, unit after unit, by [Begin], the
    unit's statements and [Commit]. *)
Theorem Up_applies_every_unit_in_order
    {Schema LockFactory Strategy : Type} (E : Env Schema)
    (self : migrator LockFactory Strategy) (w : World Schema) :
  (exists rest,
     txQueries (events (Up E self w)) ++ rest
     = allStatements E (migrationFiles self))
  /\ match result (Up E self w) with
     | Returned None =>
         txQueries (events (Up E self w))
         = allStatements E (migrationFiles self)
         /\ exists dropped,
              databaseCalls (events (Up E self w))
              = preambleCalls dropped
                ++ flat_map (unitCalls E) (migrationFiles self)
     | _ => True
     end.
Proof.
  split; [apply Up_prefix|].
  destruct (result (Up E self w)) as [[e|]|msg] eqn:Hr; try exact I.
  destruct (Up_nil_calls E self w Hr) as [Hc Hq]. now split.
Qed.

(** C2, as the specification has it, fails: the legacy floor of the
    bridged database is 1510262030 and the only unit has key 1, so no unit
    is pending, yet [Up] sends the unit's statements. *)
Lemma Up_applies_unit_below_floor :
  fst (result (checkLegacyVersion Demo.env (Demo.legacy 189))) = 1510262030%Z
  /\ map Spec.unitKey (migrationFiles Demo.fooOnly) = [1%Z]
  /\ Spec.pending
       (fst (result (CurrentVersion Demo.env (Demo.legacy 189))))
       1510262030 (migrationFiles Demo.fooOnly) = []
  /\ txQueries (events Demo.bridged) = ["CREATE TABLE foo (id int)"; ""].
Proof. repeat split. Qed.

(** ** Idempotence and the recorded versions *)

(** C1, as the code has it.  After a first [Up] that returned [nil], a
    second [Up] over the same units adds no row to the Version Store, as
    long as no statement of the units changes that table.  The units are
    not skipped, though: the statements the second call sends are an
    initial part of what the first call sent, in the same order, and all
    of it when the second call returns [nil]; and when one of them fails
    the second call returns that statement's error. *)
Theorem second_Up_repeats_first
    {Schema LockFactory Strategy : Type} (E : Env Schema)
    (self : migrator LockFactory Strategy) (w : World Schema) :
  (forall query,
     In query (allStatements E (migrationFiles self)) ->
     forall d d',
       sql E query d = inl d' -> migration_version d' = migration_version d) ->
  result (Up E self w) = Returned None ->
  noNewRows (data (world (Up E self w)))
            (data (world (Up E self (world (Up E self w)))))
  /\ (exists rest,
        txQueries (events (Up E self (world (Up E self w)))) ++ rest
        = txQueries (events (Up E self w)))
  /\ match result (Up E self (world (Up E self w))) with
     | Returned None =>
         txQueries (events (Up E self (world (Up E self w))))
         = txQueries (events (Up E self w))
     | _ => True
     end
  /\ (forall query e,
        In (TxExec query, Some e)
           (events (Up E self (world (Up E self w)))) ->
        result (Up E self (world (Up E self w))) = Returned (Some e)).
Proof.
  intros HE H1.
  destruct (Up_nil_calls E self w H1) as [_ Hq1].
  split; [now apply Up_noNewRows|]. rewrite Hq1. split; [apply Up_prefix|].
  split.
  - destruct (result (Up E self (world (Up E self w)))) as [[e|]|msg] eqn:H2;
      try exact I.
    now destruct (Up_nil_calls E self _ H2) as [_ Hq2].
  - intros query e Hin. now apply (Up_reported E self _ _ _ Hin).
Qed.

Lemma second_Up_repeats_first_witness :
  allStatements Demo.env (migrationFiles Demo.fooOnly)
  = ["CREATE TABLE foo (id int)"; ""]
  /\ result Demo.once = Returned None
  /\ noNewRows (data (world Demo.once)) (data (world Demo.twice))
  /\ (exists rest,
        txQueries (events Demo.twice) ++ rest = txQueries (events Demo.once))
  /\ In (TxExec "CREATE TABLE foo (id int)",
         Some "pq: relation foo already exists") (events Demo.twice)
  /\ result Demo.twice = Returned (Some "pq: relation foo already exists").
Proof.
  split; [reflexivity|]. split; [reflexivity|].
  destruct (second_Up_repeats_first Demo.env Demo.fooOnly Demo.fresh
              (fun query _ => Demo_execute_keeps_versions query) eq_refl)
    as (Hrows & Hpre & _ & Herr).
  split; [exact Hrows|]. split; [exact Hpre|].
  assert (Hin : In (TxExec "CREATE TABLE foo (id int)",
                    Some "pq: relation foo already exists")
                   (events Demo.twice)).
  { vm_compute. do 4 right. left. reflexivity. }
  split; [exact Hin|]. exact (Herr _ _ Hin).
Defined.

(** C1, as the specification has it, fails: the first [Up] returns [nil];
    the second sends the statement of the unit again and returns the
    server's error. *)
Lemma second_Up_runs_units_again :
  result Demo.once = Returned None
  /\ txQueries (events Demo.twice) = ["CREATE TABLE foo (id int)"]
  /\ result Demo.twice = Returned (Some "pq: relation foo already exists").
Proof. repeat split. Qed.

(** C3, as the code has it.  [Up] inserts no row into the Version Store:
    as long as no statement of the units changes that table, it holds
    after any call the versions it held before, or none. *)
Theorem Up_inserts_no_row
    {Schema LockFactory Strategy : Type} (E : Env Schema)
    (self : migrator LockFactory Strategy) (w : World Schema) :
  (forall query,
     In query (allStatements E (migrationFiles self)) ->
     forall d d',
       sql E query d = inl d' -> migration_version d' = migration_version d) ->
  versionRows (data (world (Up E self w))) = versionRows (data w)
  \/ versionRows (data (world (Up E self w))) = [].
Proof. intros HE. now apply Up_noNewRows. Qed.

Lemma Up_inserts_no_row_witness :
  allStatements Demo.env (migrationFiles Demo.fooOnly)
  = ["CREATE TABLE foo (id int)"; ""]
  /\ (versionRows (data (world Demo.once)) = versionRows (data Demo.fresh)
      \/ versionRows (data (world Demo.once)) = []).
Proof.
  split; [reflexivity|].
  exact (Up_inserts_no_row Demo.env Demo.fooOnly Demo.fresh
           (fun query _ => Demo_execute_keeps_versions query)).
Defined.

(** C3, as the specification has it, fails: [Up] applies the unit of key 1
    and returns [nil], and the Version Store has no row. *)
Lemma Up_records_no_version :
  result Demo.once = Returned None
  /\ map Spec.unitKey (migrationFiles Demo.fooOnly) = [1%Z]
  /\ schema (data (world Demo.once)) = ["foo"]
  /\ versionRows (data (world Demo.once)) = [].
Proof. repeat split. Qed.

(** ** The lock *)

(** C4, as the code has it.  [Up] makes no call on the lock factory: no
    event of any run acquires or releases a lock, and the run does not
    depend on the lock factory the migrator holds. *)
Theorem Up_never_locks
    {Schema LockFactory Strategy : Type} (E : Env Schema)
    (self : migrator LockFactory Strategy) (w : World Schema) :
  Forall (fun c => isLockCall c = false) (calls (events (Up E self w)))
  /\ forall (other : LockFactory),
       Up E (mkMigrator other (strategy self) (logger self)
               (migrationFiles self)) w
       = Up E self w.
Proof.
  split; [|reflexivity].
  destruct (Up_end E self w) as [e0 w1 Hd|f1 v w1 Hd Hv Hne|f1 e0 w1 Hd Hv
                                |f1 e2 w1 r Hd Ha|f1 w1 r Hd Hv Ha];
    rewrite events_mk; unfold calls; simpl; repeat constructor;
    apply (Applied_no_lock E _ _ _ Ha).
Qed.

(** C4, as the specification has it, fails: the first call of [Up] on the
    connection is the ensure-table statement, and the calls of the run do
    not start with the lock being taken. *)
Lemma Up_takes_no_lock :
  hd_error (calls (events Demo.once)) = Some (DBExec createTableStmt)
  /\ Spec.lockDisciplined (calls (events Demo.once)) = false.
Proof. split; reflexivity. Qed.

(** * Further properties of the package *)

(** ** Runs on a connection without faults *)

Section QuietRuns.

Context {Schema : Type} (E : Env Schema).

Lemma txStatements_quiet statements : forall (tx : Tx Schema) d,
  world (txStatements E tx statements (mkWorld d [])) = mkWorld d []
  /\ match runStatements E statements (working tx) with
     | inl d' =>
         result (txStatements E tx statements (mkWorld d [])) = (mkTx d', None)
     | inr e =>
         snd (result (txStatements E tx statements (mkWorld d []))) = Some e
     end.
Proof.
  induction statements as [|q rest IH]; intros tx d.
  - split; [reflexivity|]. now destruct tx.
  - cbn [txStatements runStatements].
    assert (Hx : Tx_Exec E tx q (mkWorld d [])
                 = match run E q (working tx) with
                   | inl d' => (mkTx d', None, mkWorld d [], [(TxExec q, None)])
                   | inr e => (tx, Some e, mkWorld d [], [(TxExec q, Some e)])
                   end) by reflexivity.
    destruct (run E q (working tx)) as [d'|e];
      rewrite (bind_eq _ _ _ _ _ _ Hx), result_mk, world_mk.
    + apply (IH (mkTx d') d).
    + now split.
Qed.

Lemma runTransaction_quiet statements (d : Database Schema) :
  result (runTransaction E statements (mkWorld d []))
  = match runStatements E statements d with
    | inl _ => None
    | inr e => Some e
    end
  /\ world (runTransaction E statements (mkWorld d []))
     = mkWorld match runStatements E statements d with
               | inl d' => d'
               | inr _ => d
               end [].
Proof.
  unfold runTransaction.
  assert (Hb : Begin (mkWorld d [])
               = (inl (mkTx d), mkWorld d [], [(DBBegin, None)]))
    by reflexivity.
  rewrite (bind_eq _ _ _ _ _ _ Hb), result_mk, world_mk.
  destruct (txStatements_quiet statements (mkTx d) d) as [Hw Hr].
  cbn [working] in Hr.
  destruct (txStatements E (mkTx d) statements (mkWorld d []))
    as [[[tx1 migrationErr] w1] t1] eqn:Hx.
  rewrite world_mk in Hw. rewrite result_mk in Hr. subst w1.
  rewrite (bind_eq _ _ _ _ _ _ Hx), result_mk, world_mk.
  destruct (runStatements E statements d) as [d'|e].
  - injection Hr as -> ->. now split.
  - cbn [snd] in Hr. subst migrationErr. now split.
Qed.

Lemma applyMigrations_quiet files : forall (d : Database Schema),
  result (applyMigrations E files (mkWorld d []))
  = Returned (snd (applyUnits E files d))
  /\ world (applyMigrations E files (mkWorld d []))
     = mkWorld (fst (applyUnits E files d)) [].
Proof.
  induction files as [|migration rest IH]; intros d; [now split|].
  cbn [applyMigrations applyUnits].
  pose proof (applyMigration_run E migration (mkWorld d [])) as Hx.
  unfold ParseFile in *.
  destruct (Asset E migration) as [body|err].
  2:{ rewrite (bind_eq _ _ _ _ _ _ Hx). now split. }
  cbv zeta in Hx.
  destruct (runTransaction_quiet (strings.Split body ";"%char) d) as [Hr Hw].
  rewrite Hr, Hw in Hx. rewrite (bind_eq _ _ _ _ _ _ Hx), result_mk, world_mk.
  destruct (runStatements E (strings.Split body ";"%char) d) as [d'|e].
  - apply IH.
  - now split.
Qed.

End QuietRuns.

(** ** [ParseFile] *)

Module SplitMore.
Import strings.

Lemma Split_app s1 s2 sep :
  Split (s1 ++ String sep s2) sep = Split s1 sep ++ Split s2 sep.
Proof.
  induction s1 as [|c s1 IH].
  - simpl String.append. rewrite SplitFacts.Split_String, Ascii.eqb_refl.
    reflexivity.
  - change (String c s1 ++ String sep s2)%string
      with (String c (s1 ++ String sep s2)).
    rewrite !SplitFacts.Split_String, IH.
    destruct (Ascii.eqb c sep); [reflexivity|].
    rewrite (SplitFacts.Split_cons s1). reflexivity.
Qed.

Lemma Split_free s sep : Contains s sep = false -> Split s sep = [s].
Proof.
  induction s as [|c s IH]; [reflexivity|].
  simpl. intros H. apply orb_false_iff in H. destruct H as [Hc Hs].
  rewrite SplitFacts.Split_String, Hc, (IH Hs). reflexivity.
Qed.

Lemma Split_Join piece pieces sep :
  Forall (fun p => Contains p sep = false) (piece :: pieces) ->
  Split (Join (piece :: pieces) (String sep EmptyString)) sep = piece :: pieces.
Proof.
  revert piece. induction pieces as [|p ps IH]; intros piece H.
  - inversion H; subst. now apply Split_free.
  - inversion H as [|? ? Hp Hps]; subst.
    change (Join (piece :: p :: ps) (String sep EmptyString))
      with (piece ++ String sep (Join (p :: ps) (String sep EmptyString)))%string.
    rewrite Split_app, (Split_free _ _ Hp), (IH p Hps). reflexivity.
Qed.

End SplitMore.

(** X1.  The statements [ParseFile] returns are the asset's text cut at
    every [;]: joined with [;] they give the text back, there is one more
    of them than the text has [;], and none of them holds a [;].  When the
    asset does not load, [ParseFile] returns the asset's error. *)
Theorem ParseFile_joins_back {Schema : Type} (E : Env Schema) name :
  match Asset E name with
  | inl contents =>
      exists statements,
        ParseFile E name = inl statements
        /\ strings.Join statements ";" = contents
        /\ length statements = S (strings.Count contents ";"%char)
        /\ Forall (fun s => strings.Contains s ";"%char = false) statements
  | inr err => ParseFile E name = inr err
  end.
Proof.
  unfold ParseFile. destruct (Asset E name) as [contents|err]; [|reflexivity].
  exists (strings.Split contents ";"%char). split; [reflexivity|].
  split; [apply SplitFacts.Join_Split|].
  split; [apply SplitFacts.Split_length|apply SplitFacts.Split_pieces].
Qed.

(** X2.  An asset written as statements joined with [;], none of which
    holds a [;], is parsed into exactly those statements. *)
Theorem ParseFile_of_joined_statements
    {Schema : Type} (E : Env Schema) name first others :
  Forall (fun s => strings.Contains s ";"%char = false) (first :: others) ->
  Asset E name = inl (strings.Join (first :: others) ";") ->
  ParseFile E name = inl (first :: others).
Proof.
  intros Hfree Ha. unfold ParseFile. rewrite Ha.
  now rewrite (SplitMore.Split_Join first others ";"%char Hfree).
Qed.

Lemma ParseFile_of_joined_statements_witness :
  Forall (fun s => strings.Contains s ";"%char = false)
    ["CREATE TABLE a (x int)"; "CREATE TABLE a (y int)";
     "CREATE TABLE b (x int)"]
  /\ ParseFile Demo.env "3_three_tables.up.sql"
     = inl ["CREATE TABLE a (x int)"; "CREATE TABLE a (y int)";
            "CREATE TABLE b (x int)"].
Proof.
  assert (H : Forall (fun s => strings.Contains s ";"%char = false)
                ["CREATE TABLE a (x int)"; "CREATE TABLE a (y int)";
                 "CREATE TABLE b (x int)"]).
  { repeat constructor. }
  split; [exact H|].
  exact (ParseFile_of_joined_statements Demo.env "3_three_tables.up.sql"
           _ _ H eq_refl).
Defined.

(** X3.  A [;] in an asset separates what [ParseFile] returns for the text
    before it from what it returns for the text after it; so an asset that
    ends in [;] gets a last statement that is empty. *)
Theorem ParseFile_at_terminator
    {Schema : Type} (E : Env Schema) name before after :
  Asset E name = inl (before ++ String ";" after)%string ->
  ParseFile E name
  = inl (strings.Split before ";"%char ++ strings.Split after ";"%char)
  /\ (after = EmptyString ->
      ParseFile E name = inl (strings.Split before ";"%char ++ [""])).
Proof.
  intros Ha. unfold ParseFile. rewrite Ha, SplitMore.Split_app.
  split; [reflexivity|]. now intros ->.
Qed.

Lemma ParseFile_at_terminator_witness :
  Asset Demo.env "1_create_foo.up.sql"
  = inl ("CREATE TABLE foo (id int)" ++ String ";" "")%string
  /\ ParseFile Demo.env "1_create_foo.up.sql"
     = inl ["CREATE TABLE foo (id int)"; ""].
Proof.
  split; [reflexivity|].
  exact (proj2 (ParseFile_at_terminator Demo.env "1_create_foo.up.sql"
                  "CREATE TABLE foo (id int)" "" eq_refl) eq_refl).
Defined.

(** ** [runTransaction] *)

(** X4.  On a connection without faults [runTransaction] is all or
    nothing: when every statement can be executed in turn, it returns [nil]
    and the database is the one after the last statement; otherwise it
    returns the error of the first statement that fails and the database is
    the one it started from. *)
Theorem runTransaction_all_or_nothing
    {Schema : Type} (E : Env Schema) statements (d : Database Schema) :
  match runStatements E statements d with
  | inl d' =>
      result (runTransaction E statements (mkWorld d [])) = None
      /\ data (world (runTransaction E statements (mkWorld d []))) = d'
  | inr e =>
      result (runTransaction E statements (mkWorld d [])) = Some e
      /\ data (world (runTransaction E statements (mkWorld d []))) = d
  end.
Proof.
  destruct (runTransaction_quiet E statements d) as [Hr Hw].
  rewrite Hr, Hw. now destruct (runStatements E statements d).
Qed.

(** X5.  A [Commit] that fails is lost: [runTransaction] prints the error,
    returns [nil], and the database is what it was before the unit. *)
Theorem failed_commit_is_lost
    {Schema : Type} (E : Env Schema) statements (w : World Schema) ce :
  In (TxCommit, Some ce) (events (runTransaction E statements w)) ->
  result (runTransaction E statements w) = None
  /\ data (world (runTransaction E statements w)) = data w
  /\ In (Printf ("err2: " ++ ce), None)
        (events (runTransaction E statements w))
  /\ txQueries (events (runTransaction E statements w)) = statements.
Proof.
  intros Hin.
  destruct (runTransaction_end E statements w)
    as [e0 w1 Hd|done q rest e0 f w1 Hs Hd|ce0 w1 Hd|tx w0 w1 Hd Hw];
    rewrite ?result_mk, ?world_mk, ?events_mk in *.
  - destruct Hin as [[=]|[]].
  - destruct Hin as [[=]|Hin]. apply in_app_or in Hin.
    destruct Hin as [Hin|[[=]|[[=]|[]]]].
    apply in_map_iff in Hin. now destruct Hin as (x & [=] & _).
  - destruct Hin as [[=]|Hin]. apply in_app_or in Hin.
    destruct Hin as [Hin|[[= <-]|[[=]|[]]]].
    { apply in_map_iff in Hin. now destruct Hin as (x & [=] & _). }
    split; [reflexivity|]. split; [exact Hd|]. split.
    + right. apply in_or_app. right. right. now left.
    + cbn [txQueries]. rewrite txQueries_app, txQueries_succeeded.
      simpl. apply app_nil_r.
  - destruct Hin as [[=]|Hin]. apply in_app_or in Hin.
    destruct Hin as [Hin|[[=]|[]]].
    apply in_map_iff in Hin. now destruct Hin as (x & [=] & _).
Qed.

Lemma failed_commit_is_lost_witness :
  In (TxCommit, Some "pq: could not commit")
     (events (runTransaction Demo.env ["CREATE TABLE foo (id int)"; ""]
                (Demo.withFaults
                   [None; None; None; Some "pq: could not commit"]
                   Demo.fresh)))
  /\ result (runTransaction Demo.env ["CREATE TABLE foo (id int)"; ""]
                (Demo.withFaults
                   [None; None; None; Some "pq: could not commit"]
                   Demo.fresh)) = None
  /\ data (world (runTransaction Demo.env ["CREATE TABLE foo (id int)"; ""]
                     (Demo.withFaults
                        [None; None; None; Some "pq: could not commit"]
                        Demo.fresh))) = data Demo.fresh.
Proof.
  assert (H : In (TxCommit, Some "pq: could not commit")
                (events (runTransaction Demo.env
                           ["CREATE TABLE foo (id int)"; ""]
                           (Demo.withFaults
                              [None; None; None; Some "pq: could not commit"]
                              Demo.fresh)))).
  { vm_compute. do 3 right. left. reflexivity. }
  split; [exact H|].
  destruct (failed_commit_is_lost Demo.env _ _ _ H) as (Hr & Hd & _).
  split; assumption.
Defined.

(** X6.  [runTransaction] never leaves a transaction open and never sends
    a statement after one that failed.  Its events are one of three: a
    [Begin] that failed, alone, whose error is returned; a [Begin], the
    statements up to the first that failed, each of the earlier ones
    without error, and one [Rollback], with the error of the failed
    statement returned; or a [Begin], all the statements without error
    and one [Commit], whose error if any is printed, with [nil] returned.
    In the first two the database is what it was. *)
Theorem runTransaction_closes_transaction
    {Schema : Type} (E : Env Schema) statements (w : World Schema) :
  (exists e,
     events (runTransaction E statements w) = [(DBBegin, Some e)]
     /\ result (runTransaction E statements w) = Some e
     /\ data (world (runTransaction E statements w)) = data w)
  \/ (exists done query rest e f,
        statements = done ++ query :: rest
        /\ events (runTransaction E statements w)
           = (DBBegin, None) :: succeeded done
             ++ [(TxExec query, Some e); (TxRollback, f)]
        /\ result (runTransaction E statements w) = Some e
        /\ data (world (runTransaction E statements w)) = data w)
  \/ (exists closing,
        events (runTransaction E statements w)
        = (DBBegin, None) :: succeeded statements
          ++ (TxCommit, closing)
             :: match closing with
                | Some ce => [(Printf ("err2: " ++ ce), None)]
                | None => []
                end
        /\ result (runTransaction E statements w) = None).
Proof.
  destruct (runTransaction_end E statements w)
    as [e0 w1 Hd|done q rest e0 f w1 Hs Hd|ce0 w1 Hd|tx w0 w1 Hd Hw];
    rewrite ?result_mk, ?world_mk, ?events_mk.
  - left. now exists e0.
  - right. left. now exists done, q, rest, e0, f.
  - right. right. now exists (Some ce0).
  - right. right. now exists None.
Qed.

(** ** [Up] *)

(** X8.  On a connection without faults and a database with no recorded
    version (the table is missing or empty), [Up] applies the units in the
    order of [migrationFiles], each all or nothing, and stops at the first
    unit whose asset does not load or whose statements fail: it returns
    that error, or [nil] after the last unit, and the database holds the
    table and the effects of the units before the one that stopped it. *)
Theorem Up_applies_units_all_or_nothing
    {Schema LockFactory Strategy : Type} (E : Env Schema)
    (self : migrator LockFactory Strategy) (d : Database Schema) :
  versionRows d = [] ->
  result (Up E self (mkWorld d []))
  = Returned (snd (applyUnits E (migrationFiles self) (ensured d)))
  /\ data (world (Up E self (mkWorld d [])))
     = fst (applyUnits E (migrationFiles self) (ensured d)).
Proof.
  intros Hrows.
  assert (Hmv : migration_version (ensured d) = Some []).
  { unfold ensured, versionRows in *.
    destruct (migration_version d) as [rows|] eqn:Hd; [|reflexivity].
    now rewrite Hd, Hrows. }
  assert (Hc : Exec E createTableStmt (mkWorld d [])
               = (None, mkWorld (ensured d) [],
                  [(DBExec createTableStmt, None)])).
  { now rewrite Exec_quiet, run_create. }
  assert (H0 : QueryRowScan legacyExistsQuery tableExists
                 (mkWorld (ensured d) [])
               = (inl true, mkWorld (ensured d) [],
                  [(DBQueryRow legacyExistsQuery, None)])).
  { rewrite QueryRowScan_quiet. unfold tableExists. now rewrite Hmv. }
  assert (H1 : existLegacyVersion (mkWorld (ensured d) [])
               = (true, mkWorld (ensured d) [],
                  [(DBQueryRow legacyExistsQuery, None)])).
  { unfold existLegacyVersion. now rewrite (bind_eq _ _ _ _ _ _ H0). }
  assert (H2 : QueryRowScan legacyVersionQuery firstVersion
                 (mkWorld (ensured d) [])
               = (inr "sql: no rows in result set", mkWorld (ensured d) [],
                  [(DBQueryRow legacyVersionQuery,
                    Some "sql: no rows in result set")])).
  { rewrite QueryRowScan_quiet. unfold firstVersion. now rewrite Hmv. }
  assert (HL : checkLegacyVersion E (mkWorld (ensured d) [])
               = ((-1)%Z, None, mkWorld (ensured d) [],
                  [(DBQueryRow legacyExistsQuery, None);
                   (DBQueryRow legacyVersionQuery,
                    Some "sql: no rows in result set")])).
  { unfold checkLegacyVersion. rewrite (bind_eq _ _ _ _ _ _ H1). cbn [negb].
    now rewrite (bind_eq _ _ _ _ _ _ H2). }
  unfold Up, checkOrCreateSchemaMigrationsTable.
  rewrite (bind_eq _ _ _ _ _ _ Hc), result_mk, world_mk.
  rewrite (bind_eq _ _ _ _ _ _ HL), result_mk, world_mk.
  destruct (applyMigrations_quiet E (migrationFiles self) (ensured d))
    as [Hr Hw].
  now rewrite Hr, Hw.
Qed.

Lemma Up_applies_units_all_or_nothing_witness :
  versionRows (data Demo.fresh) = []
  /\ result Demo.once
     = Returned (snd (applyUnits Demo.env (migrationFiles Demo.fooOnly)
                        (ensured (data Demo.fresh))))
  /\ data (world Demo.once)
     = fst (applyUnits Demo.env (migrationFiles Demo.fooOnly)
              (ensured (data Demo.fresh))).
Proof.
  split; [reflexivity|].
  exact (Up_applies_units_all_or_nothing Demo.env Demo.fooOnly
           (data Demo.fresh) eq_refl).
Defined.

(** X9.  Once its ensure-table statement has succeeded, [Up] always goes
    on to read the version row of [migration_version]: the table the
    legacy check looks for is the table [Up] has just ensured, so the check
    never finds it missing.  A run of [Up] is the failed ensure-table
    statement alone, or starts with that statement, the exists query and
    the version query. *)
Theorem Up_always_reads_version_row
    {Schema LockFactory Strategy : Type} (E : Env Schema)
    (self : migrator LockFactory Strategy) (w : World Schema) :
  (exists e, events (Up E self w) = [(DBExec createTableStmt, Some e)])
  \/ (exists f1 f2 rest,
        events (Up E self w)
        = (DBExec createTableStmt, None)
          :: (DBQueryRow legacyExistsQuery, f1)
          :: (DBQueryRow legacyVersionQuery, f2) :: rest).
Proof.
  destruct (Up_end E self w) as [e0 w1 Hd|f1 v w1 Hd Hv Hne|f1 e0 w1 Hd Hv
                                |f1 e2 w1 r Hd Ha|f1 w1 r Hd Hv Ha];
    rewrite events_mk; [left|right..]; eauto.
  all: do 3 eexists; reflexivity.
Qed.

(** ** The legacy check *)

(** X10.  [existLegacyVersion] answers [false] only when its query
    succeeded and the table is missing: a query that fails counts as the
    table being there.  It never changes the database. *)
Theorem existLegacyVersion_true_on_failure
    {Schema : Type} (w : World Schema) :
  data (world (existLegacyVersion w)) = data w
  /\ match events (existLegacyVersion w) with
     | [(DBQueryRow query, Some _)] =>
         query = legacyExistsQuery /\ result (existLegacyVersion w) = true
     | [(DBQueryRow query, None)] =>
         query = legacyExistsQuery
         /\ result (existLegacyVersion w)
            = match migration_version (data w) with
              | Some _ => true
              | None => false
              end
     | _ => False
     end.
Proof.
  unfold existLegacyVersion.
  pose proof (QueryRowScan_run legacyExistsQuery tableExists w) as H.
  cbv zeta in H.
  destruct (QueryRowScan legacyExistsQuery tableExists w)
    as [[[b|e] w1] t1] eqn:Hx;
    rewrite (bind_eq _ _ _ _ _ _ Hx);
    unfold result, world, events, ret in *; cbn [fst snd] in *.
  - destruct H as (Hd & Hrow & ->). split; [exact Hd|].
    unfold tableExists in Hrow. injection Hrow as <-. now split.
  - destruct H as (Hd & ->). split; [exact Hd|]. now split.
Qed.

(** X11.  [checkLegacyVersion] returns 1510262030 only together with [nil]
    and only when it read 189 and dropped the table; in every other case it
    returns -1 and leaves the database as it was, and when it returns -1
    with [nil] it has not sent the drop. *)
Theorem checkLegacyVersion_floor_only_after_drop
    {Schema : Type} (E : Env Schema) (w : World Schema) :
  match result (checkLegacyVersion E w) with
  | (v, None) =>
      (v = (-1)%Z
       /\ data (world (checkLegacyVersion E w)) = data w
       /\ forallb (fun c => negb (isReported c))
            (calls (events (checkLegacyVersion E w))) = true)
      \/ (v = newMigrationStartVersion
          /\ firstVersion (data w) = inl oldMigrationLastVersion
          /\ data (world (checkLegacyVersion E w))
             = setVersionTable None (data w)
          /\ In (DBExec dropLegacyStmt, None)
                (events (checkLegacyVersion E w)))
  | (v, Some e) =>
      v = (-1)%Z /\ data (world (checkLegacyVersion E w)) = data w
  end.
Proof.
  destruct (checkLegacyVersion_end E w)
    as [w1 Hd Hmv|f1 e2 w1 Hd|f1 v w1 Hd Hv Hne|f1 e w1 Hd Hv|f1 w1 Hd Hv];
    rewrite ?result_mk, ?world_mk, ?events_mk.
  - left. now repeat split.
  - left. now repeat split.
  - now split.
  - now split.
  - right. repeat split; try assumption. simpl. auto.
Qed.

(** X12.  On a database with no recorded version (the table is missing or
    empty) [checkLegacyVersion] returns -1 and [nil] and changes nothing,
    whatever faults the connection has: there is no row to compare with
    189, and the failed read is not an error. *)
Theorem checkLegacyVersion_without_rows
    {Schema : Type} (E : Env Schema) (w : World Schema) :
  versionRows (data w) = [] ->
  result (checkLegacyVersion E w) = ((-1)%Z, None)
  /\ data (world (checkLegacyVersion E w)) = data w.
Proof.
  intros Hrows.
  assert (Hv : forall v, firstVersion (data w) <> inl v).
  { intros v. unfold firstVersion, versionRows in *.
    destruct (migration_version (data w)) as [[|x rows]|]; congruence. }
  destruct (checkLegacyVersion_end E w)
    as [w1 Hd Hmv|f1 e2 w1 Hd|f1 v w1 Hd Hv' Hne|f1 e w1 Hd Hv'|f1 w1 Hd Hv'];
    rewrite ?result_mk, ?world_mk; try (now split);
    now destruct (Hv _ Hv').
Qed.

Lemma checkLegacyVersion_without_rows_witness :
  versionRows (data Demo.fresh) = []
  /\ result (checkLegacyVersion Demo.env Demo.fresh) = ((-1)%Z, None)
  /\ data (world (checkLegacyVersion Demo.env Demo.fresh)) = data Demo.fresh.
Proof.
  split; [reflexivity|].
  exact (checkLegacyVersion_without_rows Demo.env Demo.fresh eq_refl).
Defined.

(** X13.  The legacy check bridges once: after a call that returned
    1510262030, the next call on what it left returns -1 and [nil] and
    changes nothing, whatever faults the connection has. *)
Theorem checkLegacyVersion_bridges_once
    {Schema : Type} (E : Env Schema) (w : World Schema) :
  fst (result (checkLegacyVersion E w)) = newMigrationStartVersion ->
  result (checkLegacyVersion E (world (checkLegacyVersion E w)))
  = ((-1)%Z, None)
  /\ data (world (checkLegacyVersion E (world (checkLegacyVersion E w))))
     = data (world (checkLegacyVersion E w)).
Proof.
  intros Hfloor.
  assert (Hrows : versionRows (data (world (checkLegacyVersion E w))) = []).
  { destruct (checkLegacyVersion_end E w)
      as [w1 Hd Hmv|f1 e2 w1 Hd|f1 v w1 Hd Hv Hne|f1 e w1 Hd Hv|f1 w1 Hd Hv];
      rewrite ?result_mk, ?world_mk in *; try discriminate.
    now rewrite Hd. }
  destruct (checkLegacyVersion_end E (world (checkLegacyVersion E w)))
    as [w1 Hd Hmv|f1 e2 w1 Hd|f1 v w1 Hd Hv' Hne|f1 e w1 Hd Hv'|f1 w1 Hd Hv'];
    rewrite ?result_mk, ?world_mk; try (now split);
    unfold firstVersion, versionRows in *;
    destruct (migration_version (data (world (checkLegacyVersion E w))))
      as [[|x rows]|]; congruence.
Qed.

Lemma checkLegacyVersion_bridges_once_witness :
  fst (result (checkLegacyVersion Demo.env (Demo.legacy 189)))
  = newMigrationStartVersion
  /\ result (checkLegacyVersion Demo.env
               (world (checkLegacyVersion Demo.env (Demo.legacy 189))))
     = ((-1)%Z, None).
Proof.
  split; [reflexivity|].
  exact (proj1 (checkLegacyVersion_bridges_once Demo.env (Demo.legacy 189)
                  eq_refl)).
Defined.

(** ** [Down] and [CurrentVersion] *)

Lemma versionRows_ensured {Schema : Type} (d : Database Schema) :
  versionRows (ensured d) = versionRows d.
Proof.
  unfold versionRows, ensured.
  destruct (migration_version d) eqn:H; simpl; now rewrite ?H.
Qed.

(** X14.  [Down] only ensures the table, whatever version it is asked to
    go down to: its single call is the ensure-table statement, whose error
    it returns; it executes no statement of any unit and the recorded
    versions are afterwards what they were. *)
Theorem Down_only_ensures_table
    {Schema : Type} (E : Env Schema) (version : Z) (w : World Schema) :
  events (Down E version w)
  = [(DBExec createTableStmt, result (Down E version w))]
  /\ data (world (Down E version w))
     = match result (Down E version w) with
       | Some _ => data w
       | None => ensured (data w)
       end
  /\ versionRows (data (world (Down E version w))) = versionRows (data w).
Proof.
  unfold Down, checkOrCreateSchemaMigrationsTable.
  destruct (Exec_create E w) as [Hev Hd]. cbv zeta in *.
  destruct (Exec E createTableStmt w) as [[[e|] w1] t1] eqn:Hx;
    rewrite (bind_eq _ _ _ _ _ _ Hx);
    unfold result, world, events, ret in *; cbn [fst snd] in *; subst t1;
    rewrite Hd, ?versionRows_ensured; now repeat split.
Qed.

Lemma run_select {Schema : Type} (E : Env Schema) (d : Database Schema) :
  run E selectVersionsStmt d = sql E selectVersionsStmt d.
Proof. reflexivity. Qed.

(** X15.  The only error [CurrentVersion] returns is that of its
    ensure-table statement, after which it calls nothing else; when that
    statement succeeds it sends the [SELECT] through [Exec] and returns
    [nil] whether or not the [SELECT] fails.  It is not read-only: the
    table is created when it was missing. *)
Theorem CurrentVersion_reports_ensure_error_only
    {Schema : Type} (E : Env Schema) (w : World Schema) :
  match snd (result (CurrentVersion E w)) with
  | Some e =>
      events (CurrentVersion E w) = [(DBExec createTableStmt, Some e)]
      /\ data (world (CurrentVersion E w)) = data w
  | None =>
      exists selected,
        events (CurrentVersion E w)
        = [(DBExec createTableStmt, None);
           (DBExec selectVersionsStmt, selected)]
        /\ match selected with
           | Some _ => data (world (CurrentVersion E w)) = ensured (data w)
           | None =>
               sql E selectVersionsStmt (ensured (data w))
               = inl (data (world (CurrentVersion E w)))
           end
  end.
Proof.
  unfold CurrentVersion, checkOrCreateSchemaMigrationsTable.
  destruct (Exec_create E w) as [Hev Hd]. cbv zeta in *.
  destruct (Exec E createTableStmt w) as [[[e|] w1] t1] eqn:Hx;
    rewrite (bind_eq _ _ _ _ _ _ Hx);
    unfold result, world, events, ret in *; cbn [fst snd] in *; subst t1.
  - now split.
  - unfold bind, Exec. pose proof (popFault_data w1) as Hp.
    destruct (popFault w1) as [[e|] w2]; cbn [fst snd] in *.
    + exists (Some e). split; [reflexivity|]. cbn. congruence.
    + rewrite run_select, Hp, Hd.
      destruct (sql E selectVersionsStmt (ensured (data w))) as [d'|e] eqn:Hs.
      * exists None. split; [reflexivity|]. cbn. congruence.
      * exists (Some e). split; [reflexivity|]. cbn. congruence.
Qed.

(** X16.  Every error [Up] returns is handed on unchanged from where it
    arose: it is the error of a failed [Exec], [Begin] or [tx.Exec] of this
    run, or the error [Asset] gave for one of the migration files, or the
    message that names 189 and the version read from the table. *)
Theorem Up_error_source
    {Schema LockFactory Strategy : Type} (E : Env Schema)
    (self : migrator LockFactory Strategy) (w : World Schema) e :
  result (Up E self w) = Returned (Some e) ->
  (exists c, isReported c = true /\ In (c, Some e) (events (Up E self w)))
  \/ (exists migration,
        In migration (migrationFiles self) /\ Asset E migration = inr e)
  \/ (exists v,
        firstVersion (ensured (data w)) = inl v
        /\ v <> oldMigrationLastVersion
        /\ e = upgradeError v).
Proof.
  destruct (Up_end E self w) as [e0 w1 Hd|f1 v w1 Hd Hv Hne|f1 e0 w1 Hd Hv
                                |f1 e2 w1 r Hd Ha|f1 w1 r Hd Hv Ha];
    rewrite result_mk, events_mk; intros Hr.
  - injection Hr as ->. left. exists (DBExec createTableStmt).
    split; [reflexivity|]. now left.
  - injection Hr as <-. right. right. now exists v.
  - injection Hr as ->. left. exists (DBExec dropLegacyStmt).
    split; [reflexivity|]. simpl. auto.
  - destruct (Applied_error_source E _ _ _ _ Ha Hr) as [(c & Hc & Hin)|Hm].
    + left. exists c. split; [assumption|]. apply in_or_app. now right.
    + right. now left.
  - destruct (Applied_error_source E _ _ _ _ Ha Hr) as [(c & Hc & Hin)|Hm].
    + left. exists c. split; [assumption|]. apply in_or_app. now right.
    + right. now left.
Qed.

Lemma Up_error_source_witness :
  result Demo.twice = Returned (Some "pq: relation foo already exists")
  /\ ((exists c, isReported c = true
                /\ In (c, Some "pq: relation foo already exists")
                      (events Demo.twice))
      \/ (exists migration,
            In migration (migrationFiles Demo.fooOnly)
            /\ Asset Demo.env migration
               = inr "pq: relation foo already exists")
      \/ (exists v,
            firstVersion (ensured (data (world Demo.once))) = inl v
            /\ v <> oldMigrationLastVersion
            /\ "pq: relation foo already exists" = upgradeError v)).
Proof.
  split; [reflexivity|].
  exact (Up_error_source Demo.env Demo.fooOnly (world Demo.once) _ eq_refl).
Defined.

(** * Properties of the top bar *)

Section TopBarFacts.

Context {Pipeline PipelineGroup PipelineIdentifier User : Type}.
Context {HttpError UserError Url RouteRest Time : Type}.
Variable pipelineGroups : Pipeline -> list PipelineGroup.
Variable pipelineUrl : Pipeline -> string.
Variable groupName : PipelineGroup -> string.
Variable queryGet : string -> Url -> option string.
Variable urlHash : Url -> string.
Variable removeQuery : string -> Url -> Url.
Variable addQuery : string -> string -> Url -> Url.
Variable queryToString : Url -> string.

Local Notation "'Model'" :=
  (@TopBar.Model Pipeline PipelineGroup PipelineIdentifier User HttpError
     UserError Url RouteRest Time).
Local Notation "'toggleGroup'" := (TopBar.toggleGroup pipelineGroups groupName).
Local Notation "'update'" :=
  (@TopBar.update Pipeline PipelineGroup PipelineIdentifier User HttpError
     UserError Url RouteRest Time pipelineGroups pipelineUrl groupName
     urlHash removeQuery addQuery queryToString).
Local Notation "'Reachable'" :=
  (@TopBar.Reachable Pipeline PipelineGroup PipelineIdentifier User HttpError
     UserError Url RouteRest Time pipelineGroups pipelineUrl groupName
     queryGet urlHash removeQuery addQuery queryToString).

Lemma member_In x xs : TopBar.member x xs = true <-> In x xs.
Proof.
  unfold TopBar.member. rewrite existsb_exists. split.
  - intros (y & Hy & Heq). apply String.eqb_eq in Heq. now subst.
  - intros H. exists x. split; [assumption|apply String.eqb_refl].
Qed.

Lemma filter_other_free x xs :
  TopBar.member x xs = false ->
  filter (fun name => negb (String.eqb x name)) xs = xs.
Proof.
  induction xs as [|y ys IH]; [reflexivity|].
  unfold TopBar.member. simpl. intros H.
  apply orb_false_iff in H. destruct H as [Hy Hys].
  rewrite Hy. simpl. f_equal. now apply IH.
Qed.

Lemma setGroups_keeps newGroups (model : Model) :
  TopBar.pipelineIdentifier
    (fst (TopBar.setGroups pipelineUrl urlHash removeQuery addQuery
            queryToString newGroups model))
  = TopBar.pipelineIdentifier model
  /\ TopBar.ports
       (fst (TopBar.setGroups pipelineUrl urlHash removeQuery addQuery
               queryToString newGroups model))
     = TopBar.ports model
  /\ (TopBar.pipeline
        (fst (TopBar.setGroups pipelineUrl urlHash removeQuery addQuery
                queryToString newGroups model))
      = TopBar.pipeline model)
  /\ (TopBar.groupsState
        (fst (TopBar.setGroups pipelineUrl urlHash removeQuery addQuery
                queryToString newGroups model))
      = TopBar.groupsState model
      \/ exists p, TopBar.pipeline model = Some p).
Proof.
  unfold TopBar.setGroups.
  destruct (TopBar.pipeline model) as [p|] eqn:Hp; simpl; rewrite ?Hp;
    repeat split; eauto.
Qed.

(** What every reachable model satisfies. *)
Lemma Reachable_invariant initialLocation (model : Model) :
  Reachable initialLocation model ->
  TopBar.pipelineIdentifier model = None
  /\ TopBar.ports model = TopBar.ports (fst (TopBar.init initialLocation))
  /\ (TopBar.groupsState model = TopBar.GroupsStateNotLoaded
      \/ exists p, TopBar.pipeline model = Some p).
Proof.
  induction 1 as [|msg model Hm (Hpid & Hports & Hgs)
                  |route model Hm (Hpid & Hports & Hgs)].
  - simpl. auto.
  - assert (Hset : forall groups (m : Model),
              TopBar.pipelineIdentifier m = None ->
              TopBar.ports m = TopBar.ports (fst (TopBar.init initialLocation)) ->
              (TopBar.groupsState m = TopBar.GroupsStateNotLoaded
               \/ exists p, TopBar.pipeline m = Some p) ->
              let m' := fst (TopBar.setGroups pipelineUrl urlHash removeQuery
                               addQuery queryToString groups m) in
              TopBar.pipelineIdentifier m' = None
              /\ TopBar.ports m'
                 = TopBar.ports (fst (TopBar.init initialLocation))
              /\ (TopBar.groupsState m' = TopBar.GroupsStateNotLoaded
                  \/ exists p, TopBar.pipeline m' = Some p)).
    { intros groups m H1 H2 H3.
      destruct (setGroups_keeps groups m) as (K1 & K2 & K3 & K4).
      cbv zeta. rewrite K1, K2, K3. repeat split; try assumption.
      destruct K4 as [K4|K4]; [rewrite K4; exact H3|now right]. }
    destruct msg as [|[x|p]|[x|u]|pid| |group|groups|groups| |url|[x|u]| |vp];
      try (simpl; now auto); try (apply Hset; assumption).
    cbn [TopBar.update].
    destruct (hd_error (pipelineGroups p)) as [group|];
      [|simpl; eauto].
    cbn [TopBar.groupsState].
    destruct (TopBar.groupsState model) as [groups|] eqn:Hstate;
      [|simpl; eauto].
    destruct (Nat.ltb 0 (length groups)).
    + apply Hset; simpl; eauto.
    + simpl. eauto.
  - simpl. auto.
Qed.

End TopBarFacts.

(** X17.  With a pipeline that has groups, [toggleGroup] never returns an
    empty selection: a selected group is taken out of the selection, and
    when that leaves no group selected the selection becomes the first
    group of the pipeline, alone; a group that was not selected is put in
    front of the selection. *)
Theorem toggleGroup_never_empty
    {Pipeline PipelineGroup : Type}
    (pipelineGroups : Pipeline -> list PipelineGroup)
    (groupName : PipelineGroup -> string)
    (group : PipelineGroup) (names : list string) (p : Pipeline)
    (first : PipelineGroup) (others : list PipelineGroup) :
  pipelineGroups p = first :: others ->
  TopBar.toggleGroup pipelineGroups groupName group names (Some p)
  = (if TopBar.member (groupName group) names then
       match
         filter (fun name => negb (String.eqb (groupName group) name)) names
       with
       | [] => [groupName first]
       | kept => kept
       end
     else groupName group :: names)
  /\ exists name rest,
       TopBar.toggleGroup pipelineGroups groupName group names (Some p)
       = name :: rest
       /\ (In name names \/ name = groupName group \/ name = groupName first).
Proof.
  intros Hp. unfold TopBar.toggleGroup, TopBar.defaultToFirstGroup.
  destruct (TopBar.member (groupName group) names).
  - destruct (filter _ names) as [|n ns] eqn:Hf; cbn [TopBar.isEmpty].
    + rewrite Hp. split; [reflexivity|].
      exists (groupName first), []. split; [reflexivity|auto].
    + split; [reflexivity|].
      exists n, ns. split; [reflexivity|]. left.
      assert (Hin : In n (filter (fun name =>
                      negb (String.eqb (groupName group) name)) names))
        by (rewrite Hf; now left).
      now apply filter_In in Hin.
  - cbn [TopBar.isEmpty]. split; [reflexivity|].
    exists (groupName group), names. auto.
Qed.

Lemma toggleGroup_never_empty_witness :
  TopBarDemo.pipelineGroups ["build"; "deploy"] = ["build"; "deploy"]
  /\ TopBar.toggleGroup TopBarDemo.pipelineGroups TopBarDemo.groupName
       "deploy" ["deploy"] (Some ["build"; "deploy"])
     = ["build"].
Proof.
  split; [reflexivity|].
  destruct (toggleGroup_never_empty TopBarDemo.pipelineGroups
              TopBarDemo.groupName "deploy" ["deploy"] ["build"; "deploy"]
              "build" ["deploy"] eq_refl) as [H _].
  etransitivity; [exact H|reflexivity].
Defined.

(** X18.  Toggling a group that is not selected, while some other group
    is, and toggling it again gives the selection back. *)
Theorem toggleGroup_twice
    {Pipeline PipelineGroup : Type}
    (pipelineGroups : Pipeline -> list PipelineGroup)
    (groupName : PipelineGroup -> string)
    (group : PipelineGroup) (name : string) (names : list string)
    (mpipeline : option Pipeline) :
  TopBar.member (groupName group) (name :: names) = false ->
  TopBar.toggleGroup pipelineGroups groupName group
    (TopBar.toggleGroup pipelineGroups groupName group (name :: names)
       mpipeline)
    mpipeline
  = name :: names.
Proof.
  intros Hm. unfold TopBar.toggleGroup at 2. rewrite Hm.
  cbn [TopBar.defaultToFirstGroup TopBar.isEmpty].
  unfold TopBar.toggleGroup.
  assert (Hin : TopBar.member (groupName group)
                  (groupName group :: name :: names) = true).
  { unfold TopBar.member. simpl. now rewrite String.eqb_refl. }
  rewrite Hin.
  change (filter (fun n => negb (String.eqb (groupName group) n))
            (groupName group :: name :: names))
    with (if negb (String.eqb (groupName group) (groupName group))
          then groupName group
                 :: filter (fun n => negb (String.eqb (groupName group) n))
                      (name :: names)
          else filter (fun n => negb (String.eqb (groupName group) n))
                 (name :: names)).
  rewrite String.eqb_refl. cbn [negb].
  now rewrite (filter_other_free (groupName group) (name :: names) Hm).
Qed.

Lemma toggleGroup_twice_witness :
  TopBar.member (TopBarDemo.groupName "deploy") ["build"] = false
  /\ TopBar.toggleGroup TopBarDemo.pipelineGroups TopBarDemo.groupName
       "deploy"
       (TopBar.toggleGroup TopBarDemo.pipelineGroups TopBarDemo.groupName
          "deploy" ["build"] (Some ["build"; "deploy"]))
       (Some ["build"; "deploy"])
     = ["build"].
Proof.
  split; [reflexivity|].
  exact (toggleGroup_twice TopBarDemo.pipelineGroups TopBarDemo.groupName
           "deploy" "build" [] (Some ["build"; "deploy"]) eq_refl).
Defined.

(** X19.  [toggleGroup] keeps a selection free of repetitions: when no
    name occurs twice among the selected groups, none does afterwards. *)
Theorem toggleGroup_keeps_NoDup
    {Pipeline PipelineGroup : Type}
    (pipelineGroups : Pipeline -> list PipelineGroup)
    (groupName : PipelineGroup -> string)
    (group : PipelineGroup) (names : list string)
    (mpipeline : option Pipeline) :
  NoDup names ->
  NoDup (TopBar.toggleGroup pipelineGroups groupName group names mpipeline).
Proof.
  intros Hnd. unfold TopBar.toggleGroup, TopBar.defaultToFirstGroup.
  destruct (TopBar.member (groupName group) names) eqn:Hm.
  - pose proof (NoDup_filter
                  (fun name => negb (String.eqb (groupName group) name))
                  Hnd) as Hf.
    destruct (filter _ names) as [|n ns]; cbn [TopBar.isEmpty];
      [|exact Hf].
    destruct mpipeline as [p|]; [|constructor].
    destruct (map groupName (pipelineGroups p)) as [|g gs]; simpl;
      repeat constructor. intros [].
  - cbn [TopBar.isEmpty]. constructor; [|exact Hnd].
    intros Hin. apply member_In in Hin. congruence.
Qed.

Lemma toggleGroup_keeps_NoDup_witness :
  NoDup ["build"; "deploy"]
  /\ NoDup (TopBar.toggleGroup TopBarDemo.pipelineGroups
              TopBarDemo.groupName "test" ["build"; "deploy"]
              (Some ["build"; "deploy"; "test"])).
Proof.
  assert (H : NoDup ["build"; "deploy"]).
  { repeat constructor; simpl; intuition discriminate. }
  split; [exact H|].
  exact (toggleGroup_keeps_NoDup TopBarDemo.pipelineGroups
           TopBarDemo.groupName "test" _ _ H).
Defined.

(** X20.  In every model the program reaches from [init] by [update] and
    [urlUpdate], the state of the groups is the selected one only when a
    pipeline has been loaded: group selections that arrive before the
    pipeline leave the state of the groups as it is. *)
Theorem groups_selected_only_with_pipeline
    {Pipeline PipelineGroup PipelineIdentifier User : Type}
    {HttpError UserError Url RouteRest Time : Type}
    (pipelineGroups : Pipeline -> list PipelineGroup)
    (pipelineUrl : Pipeline -> string)
    (groupName : PipelineGroup -> string)
    (queryGet : string -> Url -> option string)
    (urlHash : Url -> string)
    (removeQuery : string -> Url -> Url)
    (addQuery : string -> string -> Url -> Url)
    (queryToString : Url -> string)
    (initialLocation : TopBar.ConcourseRoute)
    (model : @TopBar.Model Pipeline PipelineGroup PipelineIdentifier User
               HttpError UserError Url RouteRest Time) :
  TopBar.Reachable pipelineGroups pipelineUrl groupName queryGet urlHash
    removeQuery addQuery queryToString initialLocation model ->
  match TopBar.groupsState model with
  | TopBar.GroupsStateSelected _ => exists p, TopBar.pipeline model = Some p
  | TopBar.GroupsStateNotLoaded => True
  end.
Proof.
  intros H.
  destruct (Reachable_invariant _ _ _ _ _ _ _ _ _ _ H) as (_ & _ & [Hs|Hp]).
  - now rewrite Hs.
  - now destruct (TopBar.groupsState model).
Qed.

Lemma groups_selected_only_with_pipeline_witness :
  TopBarDemo.Reachable TopBarDemo.clicked
  /\ TopBar.groupsState TopBarDemo.clicked
     = TopBar.GroupsStateSelected ["deploy"]
  /\ exists p, TopBar.pipeline TopBarDemo.clicked = Some p.
Proof.
  assert (H : TopBarDemo.Reachable TopBarDemo.clicked).
  { apply TopBar.ReachedUpdate. apply TopBar.ReachedUpdate.
    apply TopBar.ReachedInit. }
  split; [exact H|]. split; [reflexivity|].
  exact (groups_selected_only_with_pipeline _ _ _ _ _ _ _ _ _ _ H).
Defined.

(** X21.  No model the program reaches from [init] by [update] and
    [urlUpdate] has a pipeline identifier, so [subscriptions] never asks
    for the clock: it listens to the two incoming ports only, and the
    refresh of the pipeline every five seconds is never scheduled. *)
Theorem subscriptions_never_ask_for_the_clock
    {Pipeline PipelineGroup PipelineIdentifier User : Type}
    {HttpError UserError Url RouteRest Time : Type}
    (pipelineGroups : Pipeline -> list PipelineGroup)
    (pipelineUrl : Pipeline -> string)
    (groupName : PipelineGroup -> string)
    (queryGet : string -> Url -> option string)
    (urlHash : Url -> string)
    (removeQuery : string -> Url -> Url)
    (addQuery : string -> string -> Url -> Url)
    (queryToString : Url -> string)
    (initialLocation : TopBar.ConcourseRoute)
    (model : @TopBar.Model Pipeline PipelineGroup PipelineIdentifier User
               HttpError UserError Url RouteRest Time) :
  TopBar.Reachable pipelineGroups pipelineUrl groupName queryGet urlHash
    removeQuery addQuery queryToString initialLocation model ->
  TopBar.pipelineIdentifier model = None
  /\ TopBar.subscriptions model
     = TopBar.SubBatch
         [TopBar.PortSetViewingPipeline TopBar.SetViewingPipeline;
          TopBar.PortSelectGroups TopBar.SelectGroups;
          TopBar.SubNone].
Proof.
  intros H.
  destruct (Reachable_invariant _ _ _ _ _ _ _ _ _ _ H) as (Hpid & Hports & _).
  split; [exact Hpid|].
  unfold TopBar.subscriptions. now rewrite Hpid, Hports.
Qed.

Lemma subscriptions_never_ask_for_the_clock_witness :
  TopBarDemo.Reachable TopBarDemo.clicked
  /\ TopBar.subscriptions TopBarDemo.clicked
     = TopBar.SubBatch
         [TopBar.PortSetViewingPipeline TopBar.SetViewingPipeline;
          TopBar.PortSelectGroups TopBar.SelectGroups;
          TopBar.SubNone].
Proof.
  assert (H : TopBarDemo.Reachable TopBarDemo.clicked).
  { apply TopBar.ReachedUpdate. apply TopBar.ReachedUpdate.
    apply TopBar.ReachedInit. }
  split; [exact H|].
  exact (proj2 (subscriptions_never_ask_for_the_clock _ _ _ _ _ _ _ _ _ _ H)).
Defined.
